(** * The conversation orchestration engine of llm-chat

    A shallow embedding of [handleSendMessage] and of the helpers it closes
    over ([getUniqueTools], [updateConversationMessages], [cancelCurrentCall])
    from [src/components/LlmChat/ChatView.tsx], with the data model of
    [src/components/LlmChat/types] and [context/types.ts].

    Conventions.
    - A JavaScript string is modelled as the [string] of the bytes of its
      UTF-8 encoding; the string primitives the code calls ([split],
      [replace], [trim]) are written out below on that encoding.  The
      patterns the code splits on and replaces are ASCII, and an ASCII byte
      never occurs inside the encoding of another character, so these work
      on bytes as they do on characters.
    - The [timestamp] of a message ([new Date()]) is left out: nothing
      reads it.  The [lastUpdated] of a conversation is kept, as a number
      of milliseconds.
    - The provider, the tool transport and the user pressing the stop button
      are the environment of the loop.  A run is driven by a script that
      fixes, for every loop iteration, what each awaited call settles to and
      whether the stop button is pressed while it is pending. *)

From Stdlib Require Import Ascii String.
From stdpp Require Import base list strings gmap.

Set Warnings "-clear-no-such-hyp".

(** ** JavaScript string primitives *)

Module Js.

(** The white space and line terminators that [String.prototype.trim]
    strips ([WhiteSpace] and [LineTerminator] of ECMA-262), by the bytes of
    their encoding:
    - one byte: U+0009 to U+000D (TAB, LF, VT, FF, CR) and U+0020 (SPACE);
    - two bytes: U+00A0 (NO-BREAK SPACE), C2 A0;
    - three bytes: U+1680, E1 9A 80; U+2000 to U+200A, E2 80 80 to E2 80 8A;
      U+2028 and U+2029, E2 80 A8 and E2 80 A9; U+202F, E2 80 AF;
      U+205F, E2 81 9F; U+3000, E3 80 80; U+FEFF, EF BB BF. *)
Definition space1 (a : nat) : bool :=
  (Nat.leb 9 a && Nat.leb a 13) || Nat.eqb a 32.

Definition space2 (a b : nat) : bool :=
  Nat.eqb a 194 && Nat.eqb b 160.

Definition space3 (a b c : nat) : bool :=
  (Nat.eqb a 225 && Nat.eqb b 154 && Nat.eqb c 128)
  || (Nat.eqb a 226 && Nat.eqb b 128
      && ((Nat.leb 128 c && Nat.leb c 138)
          || Nat.eqb c 168 || Nat.eqb c 169 || Nat.eqb c 175))
  || (Nat.eqb a 226 && Nat.eqb b 129 && Nat.eqb c 159)
  || (Nat.eqb a 227 && Nat.eqb b 128 && Nat.eqb c 128)
  || (Nat.eqb a 239 && Nat.eqb b 187 && Nat.eqb c 191).

(** The number of bytes of the white-space character the string starts
    with; 0 when it starts with none. *)
Definition space_width (s : string) : nat :=
  match s with
  | EmptyString => 0
  | String a rest =>
      if space1 (nat_of_ascii a) then 1
      else match rest with
           | EmptyString => 0
           | String b rest =>
               if space2 (nat_of_ascii a) (nat_of_ascii b) then 2
               else match rest with
                    | EmptyString => 0
                    | String c _ =>
                        if space3 (nat_of_ascii a) (nat_of_ascii b) (nat_of_ascii c)
                        then 3 else 0
                    end
           end
  end.

(** [skip] counts the bytes of a white-space character that has been
    recognised and is still being passed over. *)
Fixpoint trimStart_from (skip : nat) (s : string) : string :=
  match s with
  | EmptyString => EmptyString
  | String _ rest =>
      match skip with
      | S k => trimStart_from k rest
      | O =>
          match space_width s with
          | O => s
          | S k => trimStart_from k rest
          end
      end
  end.

Definition trimStart (s : string) : string := trimStart_from 0 s.

(** The string is white space from end to end. *)
Definition blank (s : string) : bool :=
  match trimStart s with
  | EmptyString => true
  | String _ _ => false
  end.

(** The longest suffix that is white space from end to end is cut off. *)
Fixpoint trimEnd (s : string) : string :=
  match s with
  | EmptyString => EmptyString
  | String c rest => if blank s then EmptyString else String c (trimEnd rest)
  end.

Definition trim (s : string) : string := trimEnd (trimStart s).

Fixpoint drop (n : nat) (s : string) : string :=
  match n, s with
  | O, _ => s
  | S k, String _ rest => drop k rest
  | S _, EmptyString => EmptyString
  end.

(** [s.replace(pat, '')] with a string pattern: the first occurrence of
    [pat] is removed, later ones stay. *)
Fixpoint replace_first (pat s : string) : string :=
  if String.prefix pat s then drop (String.length pat) s
  else match s with
       | EmptyString => EmptyString
       | String c rest => String c (replace_first pat rest)
       end.

(** [s.replace(/[...]/g, '')] for a class of ASCII characters: every
    character of the class is removed. *)
Fixpoint remove_all (cls : ascii -> bool) (s : string) : string :=
  match s with
  | EmptyString => EmptyString
  | String c rest =>
      if cls c then remove_all cls rest else String c (remove_all cls rest)
  end.

(** [s.split(sep)] for a non-empty separator.  [skip] counts the characters
    of a separator that has just been matched and is still being passed
    over.  The result is never empty; its head is the piece being read. *)
Fixpoint split_from (sep : string) (skip : nat) (s : string) : list string :=
  match s with
  | EmptyString => [EmptyString]
  | String c rest =>
      match skip with
      | S k => split_from sep k rest
      | O =>
          if String.prefix sep s
          then EmptyString :: split_from sep (String.length sep - 1) rest
          else match split_from sep 0 rest with
               | piece :: more => String c piece :: more
               | [] => [String c EmptyString]
               end
      end
  end.

Fixpoint chars (s : string) : list string :=
  match s with
  | EmptyString => []
  | String c rest => String c EmptyString :: chars rest
  end.

(** With an empty separator JavaScript splits into UTF-16 code units,
    which are the bytes here for ASCII text only; the code always passes a
    separator. *)
Definition split (sep s : string) : list string :=
  match sep with
  | EmptyString => chars s
  | _ => split_from sep 0 s
  end.

End Js.

(** ** Data model ([types], [context/types.ts]) *)

Inductive Role := user | assistant.

(** Tool input is an arbitrary JSON object; only its identity matters here. *)
Definition Json := string.

(** [MessageContent]: a union tagged by [type].  The error branch of the tool
    dispatch adds [is_error: true] to a tool result; [false] stands for the
    absent field. *)
Inductive MessageContent :=
| TextBlock (text : string)
| ToolUse (id name : string) (input : Json)
| ToolResult (tool_use_id content : string) (is_error : bool).

(** [content: MessageContent[] | string]. *)
Inductive Content (B : Type) :=
| Blocks (blocks : list B)
| Plain (s : string).
Arguments Blocks {B} blocks.
Arguments Plain {B} s.

Record Message := mkMessage {
  role : Role;
  content : Content MessageContent;
  toolInput : option Json;
}.

(** A content block of an outbound payload: the stored block, the
    [cache_control: {type: 'ephemeral'}] marker when present, and the
    stray [content] key that the elision spread leaves on a block that is
    not a tool result. *)
Record ApiBlock := mkApiBlock {
  blk : MessageContent;
  cache_control : bool;
  extra_content : option string;
}.

Record ApiMessage := mkApiMessage {
  api_role : Role;
  api_content : Content ApiBlock;
  api_toolInput : option Json;
}.

#[global] Instance Role_eq_dec : EqDecision Role.
Proof. solve_decision. Defined.
#[global] Instance MessageContent_eq_dec : EqDecision MessageContent.
Proof. solve_decision. Defined.
#[global] Instance Content_eq_dec {B} `{EqDecision B} : EqDecision (Content B).
Proof. solve_decision. Defined.
#[global] Instance Message_eq_dec : EqDecision Message.
Proof. solve_decision. Defined.
#[global] Instance ApiBlock_eq_dec : EqDecision ApiBlock.
Proof. solve_decision. Defined.
#[global] Instance ApiMessage_eq_dec : EqDecision ApiMessage.
Proof. solve_decision. Defined.

Definition is_text (c : MessageContent) : bool :=
  match c with TextBlock _ => true | _ => false end.
Definition is_tool_use (c : MessageContent) : bool :=
  match c with ToolUse _ _ _ => true | _ => false end.
Definition is_tool_result (c : MessageContent) : bool :=
  match c with ToolResult _ _ _ => true | _ => false end.

(** A stored block as it appears in a payload when nothing is added. *)
Definition bare (c : MessageContent) : ApiBlock :=
  {| blk := c; cache_control := false; extra_content := None |}.

(** [{ ...c, cache_control: {type: 'ephemeral'} }] *)
Definition ephemeral (b : ApiBlock) : ApiBlock :=
  {| blk := blk b; cache_control := true; extra_content := extra_content b |}.

(** [{ ...b, content: s }]: on a tool result the spread overwrites its
    [content]; on any other block it adds the key. *)
Definition with_content (s : string) (b : ApiBlock) : ApiBlock :=
  match blk b with
  | ToolResult i _ e =>
      {| blk := ToolResult i s e; cache_control := cache_control b;
         extra_content := extra_content b |}
  | _ =>
      {| blk := blk b; cache_control := cache_control b;
         extra_content := Some s |}
  end.

(** ** Context/cache shaping: [cachedApiMessages] *)

(** [content.map((c, index, array) => index != array.length - 1 ? c :
    {...c, cache_control})] *)
Definition mark_last (l : list ApiBlock) : list ApiBlock :=
  imap (fun index c =>
          if Nat.eqb (index + 1) (length l) then ephemeral c else c) l.

(** One element of the [currentMessages.map] callback; [len] is
    [array.length].  [index < array.length - 3] is an integer comparison
    whose right side may be negative, hence [index + 3 < len]. *)
Definition shape_message (len index : nat) (m : Message) : ApiMessage :=
  if Nat.ltb (index + 3) len then
    {| api_role := role m;
       api_content := match content m with
                      | Blocks l => Blocks (bare <$> l)
                      | Plain s => Plain s
                      end;
       api_toolInput := toolInput m |}
  else
    {| api_role := role m;
       api_content := match content m with
                      | Plain s => Blocks [ephemeral (bare (TextBlock s))]
                      | Blocks l => Blocks (mark_last (bare <$> l))
                      end;
       api_toolInput := toolInput m |}.

Definition cachedApiMessages (currentMessages : list Message) : list ApiMessage :=
  imap (shape_message (length currentMessages)) currentMessages.

(** ** Elision: [newestToolResultId] and [apiMessagesToSend] *)

Definition block_list {B} (c : Content B) : list B :=
  match c with Blocks l => l | Plain _ => [] end.

Definition tool_result_id (c : MessageContent) : option string :=
  match c with ToolResult i _ _ => Some i | _ => None end.

(** The ids of the tool results of a message, in order; a message whose
    content is a plain string has none ([Array.isArray] filter). *)
Definition result_ids (m : Message) : list string :=
  omap tool_result_id (block_list (content m)).

(** [.filter(Array.isArray).flatMap(content).filter(tool_result)
     .map(tool_use_id).pop()] *)
Definition newestToolResultId (currentMessages : list Message) : option string :=
  last (concat (result_ids <$> currentMessages)).

(** The callback of the [cachedApiMessages.map] that builds
    [apiMessagesToSend] when [elideToolResults] is set. *)
Definition elide_message (newest : option string) (saved : gset string)
    (msg : ApiMessage) : ApiMessage :=
  match api_content msg with
  | Plain _ => msg
  | Blocks l =>
      match List.find (fun c => is_tool_result (blk c)) l with
      | None => msg
      | Some toolResult =>
          match tool_result_id (blk toolResult) with
          | None => msg
          | Some toolUseId =>
              if bool_decide (Some toolUseId = newest)
                 || bool_decide (toolUseId ∈ saved)
              then msg
              else {| api_role := api_role msg;
                      api_content :=
                        Blocks match l with
                               | first :: _ => [with_content "elided" first]
                               | [] => []
                               end;
                      api_toolInput := api_toolInput msg |}
          end
      end
  end.

Definition apiMessagesToSend (elideToolResults : bool)
    (newest : option string) (saved : gset string)
    (cached : list ApiMessage) : list ApiMessage :=
  if elideToolResults then elide_message newest saved <$> cached else cached.

(** ** Exceptions and awaited calls *)

(** What a [throw] or a rejected promise carries: an [Error] with its
    [message], or some other value ([error instanceof Error] is false). *)
Inductive Thrown :=
| ErrorObj (message : string)
| NonError.

Inductive Res (A : Type) :=
| Ok (a : A)
| Throw (e : Thrown).
Arguments Ok {A} a.
Arguments Throw {A} e.

(** Reading a property of [undefined]; the message is the engine's. *)
Definition TypeError (property : string) : Thrown :=
  ErrorObj ("Cannot read properties of undefined (reading '" ++ property ++ "')").

Inductive Settled (A : Type) :=
| Resolved (a : A)
| Rejected (e : Thrown).
Arguments Resolved {A} a.
Arguments Rejected {A} e.

(** One awaited call as the environment plays it: what the promise settles
    to, and whether the stop button ([cancelCurrentCall]) is pressed while
    it is pending. *)
Record Await (A : Type) := mkAwait {
  settles : Settled A;
  stop_pressed : bool;
}.
Arguments mkAwait {A} settles stop_pressed.
Arguments settles {A} _.
Arguments stop_pressed {A} _.

(** The environment's part in one pass through the [while (true)] body.
    A field is consulted only if the pass reaches the corresponding call. *)
Record Iteration := mkIteration {
  judge_reply : Await (list MessageContent);   (* keepToolResponse.content *)
  stream_deltas : list string;                 (* the 'text' events *)
  stream_final : Await (list MessageContent);  (* finalResponse.content *)
  title_reply : Await (list MessageContent);   (* summaryResponse.content *)
  tool_reply : Await string;                   (* executeTool(...) *)
}.

(** ** The elision judge's verdict lines *)

(** The body of [for (const line of lines)]: [const [key, value] =
    line.split(': ')], then [value.trim()] is compared with 'Yes' and 'No'.
    With no separator in the line [value] is [undefined] and [value.trim()]
    throws. *)
Definition judge_line (saved : gset string) (line : string) : Res (gset string) :=
  match Js.split ": " line with
  | key :: value :: _ =>
      if bool_decide (Js.trim value = "Yes") then Ok ({[key]} ∪ saved)
      else if bool_decide (Js.trim value = "No") then Ok (saved ∖ {[key]})
      else Ok saved
  | _ => Throw (TypeError "trim")
  end.

(** The whole [for] loop.  A throw leaves it at once; the set reached so far
    is dropped with it, since [savedToolResults] is local to the turn that
    the exception ends. *)
Fixpoint judge_lines (lines : list string) (saved : gset string)
    : Res (gset string) :=
  match lines with
  | [] => Ok saved
  | line :: rest =>
      match judge_line saved line with
      | Ok saved' => judge_lines rest saved'
      | Throw e => Throw e
      end
  end.

Definition LF : string := String (ascii_of_nat 10) EmptyString.

(** [keepToolResponse.content[0].text.split('\n')] and the loop over it. *)
Definition judge_text (text : string) (saved : gset string) : Res (gset string) :=
  judge_lines (Js.split LF text) saved.

(** ** Title clean-up *)

Definition is_quote (c : ascii) : bool :=
  Nat.eqb (nat_of_ascii c) 34 || Nat.eqb (nat_of_ascii c) 39.

(** The chain on [summaryResponse.content[0].text]: a global regex replace
    that deletes every double and single quote character, then
    [.replace('title:', '').replace('Title:', '').replace('title', '')
    .replace('Title', '').trim()]. *)
Definition suggestedTitle (text : string) : string :=
  Js.trim
    (Js.replace_first "Title"
       (Js.replace_first "title"
          (Js.replace_first "Title:"
             (Js.replace_first "title:"
                (Js.remove_all is_quote text))))).

(** ** Projects, tool servers and the component's closure *)

Record McpTool := mkMcpTool {
  tool_name : string;
  tool_description : string;
  input_schema : Json;
}.

(** A connected server; [tools] may be missing ([s.tools?.some],
    [s.tools || []]). *)
Record McpServer := mkMcpServer {
  server_id : string;
  server_tools : option (list McpTool);
}.

Record ProjectSettings := mkProjectSettings {
  apiKey : option string;
  model : string;
  systemPrompt : string;
  mcpServers : list McpServer;
  elideToolResults : bool;
}.

(** [lastUpdated] is a [Date], held as its time value. *)
Record ConversationBrief := mkConversationBrief {
  conversation_id : string;
  conversation_name : string;
  lastUpdated : nat;
  messages : list Message;
}.

Record Project := mkProject {
  project_id : string;
  settings : ProjectSettings;
  conversations : list ConversationBrief;
}.

(** What [handleSendMessage] closes over at the render that created it. *)
Record Component := mkComponent {
  projects : list Project;
  activeProjectId : option string;
  activeConversationId : option string;
  inputMessage : string;
  servers : list McpServer;               (* useMcp().servers *)
}.

Definition activeProject (comp : Component) : option Project :=
  List.find (fun p => bool_decide (Some (project_id p) = activeProjectId comp))
            (projects comp).

Definition activeConversation (comp : Component) : option ConversationBrief :=
  p ← activeProject comp;
  List.find (fun c => bool_decide (Some (conversation_id c) = activeConversationId comp))
            (conversations p).

(** A tool as listed in a provider request. *)
Record ApiTool := mkApiTool {
  api_tool_name : string;
  api_tool_description : string;
  api_tool_input_schema : Json;
  api_tool_cache_control : bool;
}.

(** The [forEach] that fills [toolMap]: the first tool of each name is kept,
    in order of first appearance. *)
Fixpoint first_of_each_name (tools : list McpTool) (seen : gset string)
    : list McpTool :=
  match tools with
  | [] => []
  | t :: rest =>
      if bool_decide (tool_name t ∈ seen) then first_of_each_name rest seen
      else t :: first_of_each_name rest ({[tool_name t]} ∪ seen)
  end.

Definition getUniqueTools (comp : Component) (should_cache : bool) : list ApiTool :=
  match activeProject comp with
  | None => []
  | Some p =>
      match mcpServers (settings p) with
      | [] => []
      | configured =>
          let of_project :=
            List.filter
              (fun server =>
                 existsb (fun configuredServer =>
                            bool_decide (server_id configuredServer = server_id server))
                         configured)
              (servers comp) in
          let tools :=
            first_of_each_name
              (of_project ≫= (fun s => default [] (server_tools s))) ∅ in
          imap (fun index t =>
                  {| api_tool_name := tool_name t;
                     api_tool_description := tool_description t;
                     api_tool_input_schema := input_schema t;
                     api_tool_cache_control :=
                       should_cache && Nat.eqb (index + 1) (length tools) |})
               tools
      end
  end.

(** [servers.find(s => s.tools?.some(t => t.name === toolUseContent.name))] *)
Definition serverWithTool (comp : Component) (name : string) : option McpServer :=
  List.find
    (fun s => match server_tools s with
              | Some tools => existsb (fun t => bool_decide (tool_name t = name)) tools
              | None => false
              end)
    (servers comp).

(** ** The turn's state and its effects *)

(** Calls the turn makes on its collaborators, in the order made. *)
Inductive Event :=
| UpdateMessages (projectId conversationId : string) (newMessages : list Message)
| JudgeCall (cached : list ApiMessage)
| StreamCall (apiMessages : list ApiMessage) (tools : option (list ApiTool))
| TitleCall (userFirstMessage assistantFirstMessage : Content ApiBlock)
| ExecuteTool (serverId toolName : string) (input : Json)
| RenameConversation (projectId conversationId newName : string).

(** The mutable state a turn works on: the locals [currentMessages] and
    [savedToolResults], the ref [shouldCancelRef], the UI state [isLoading]
    and [error], and the calls made so far (oldest first).

    [updateConversationMessages] is handed the array [currentMessages]
    itself, which later [push]es mutate; every such [push] is followed at
    once by another [updateConversationMessages] with that same array, so
    the store never shows a list other than the one of the latest call and
    the trace records it by value. *)
Record State := mkState {
  currentMessages : list Message;
  savedToolResults : gset string;
  shouldCancel : bool;
  isLoading : bool;
  error : option string;
  trace : list Event;
}.

Definition M (A : Type) : Type := State -> Res A * State.

Definition ret {A} (a : A) : M A := fun st => (Ok a, st).
Definition throw {A} (e : Thrown) : M A := fun st => (Throw e, st).
Definition bind {A B} (m : M A) (k : A -> M B) : M B :=
  fun st => match m st with
            | (Ok a, st') => k a st'
            | (Throw e, st') => (Throw e, st')
            end.
Definition get : M State := fun st => (Ok st, st).
Definition lift {A} (r : Res A) : M A := fun st => (r, st).

Declare Scope turn_scope.
Delimit Scope turn_scope with turn.
Notation "'let*' x ':=' m 'in' k" := (bind m (fun x => k))
  (at level 10, x name, m at level 100, k at level 200) : turn_scope.
Notation "m '>>' k" := (bind m (fun _ => k))
  (at level 80, right associativity) : turn_scope.

Definition emit (e : Event) : M unit :=
  fun st => (Ok tt,
             {| currentMessages := currentMessages st;
                savedToolResults := savedToolResults st;
                shouldCancel := shouldCancel st;
                isLoading := isLoading st;
                error := error st;
                trace := trace st ++ [e] |}).

(** [currentMessages.push(m)] *)
Definition push (m : Message) : M unit :=
  fun st => (Ok tt,
             {| currentMessages := currentMessages st ++ [m];
                savedToolResults := savedToolResults st;
                shouldCancel := shouldCancel st;
                isLoading := isLoading st;
                error := error st;
                trace := trace st |}).

Definition set_saved (saved : gset string) : M unit :=
  fun st => (Ok tt,
             {| currentMessages := currentMessages st;
                savedToolResults := saved;
                shouldCancel := shouldCancel st;
                isLoading := isLoading st;
                error := error st;
                trace := trace st |}).

(** [cancelCurrentCall], run by the stop button. *)
Definition cancelCurrentCall : M unit :=
  fun st => (Ok tt,
             {| currentMessages := currentMessages st;
                savedToolResults := savedToolResults st;
                shouldCancel := true;
                isLoading := false;
                error := Some "Operation cancelled";
                trace := trace st |}).

(** [await call]: while the promise is pending the user may press stop;
    then the promise settles. *)
Definition await {A} (call : Await A) : M A :=
  ((if stop_pressed call then cancelCurrentCall else ret tt) >>
   match settles call with
   | Resolved a => ret a
   | Rejected e => throw e
   end)%turn.

Inductive Next := Continue | Break.

(** How a turn ended: [Skipped] when [handleSendMessage] returned before
    its [try]; [Finished] when the loop reached [break]; [Failed] when the
    outer [catch] ran; [Pending] when the script is used up and the loop is
    waiting on a call that has not settled. *)
Inductive Outcome :=
| Skipped
| Finished
| Failed (e : Thrown)
| Pending.

Section Turn.

Variable comp : Component.
Variable project : Project.            (* activeProject *)
Variable conversationId : string.      (* activeConversationId *)

Definition updateConversationMessages (newMessages : list Message) : M unit :=
  emit (UpdateMessages (project_id project) conversationId newMessages).

(** [currentStreamMessage] once [textContent.text] has grown to [text]. *)
Definition currentStreamMessage (text : string) : Message :=
  {| role := assistant; content := Blocks [TextBlock text]; toolInput := None |}.

(** The ['text'] handler, run once per delta. *)
Fixpoint on_text (text : string) (deltas : list string) : M unit :=
  match deltas with
  | [] => ret tt
  | delta :: rest =>
      let* st := get in
      updateConversationMessages
        (currentMessages st ++ [currentStreamMessage (text ++ delta)]) >>
      on_text (text ++ delta) rest
  end%turn.

(** Lines 220-288: the judging call and the parsing of its reply. *)
Definition judge_phase (it : Iteration) (cached : list ApiMessage) : M unit :=
  (if elideToolResults (settings project) then
     let* first :=
       match last cached with
       | None => throw (TypeError "content")
       | Some lastMessage =>
           match api_content lastMessage with
           | Plain _ => ret None
           | Blocks [] => throw (TypeError "type")
           | Blocks (first :: _) => ret (Some (blk first))
           end
       end in
     match first with
     | Some (ToolResult _ _ _) =>
         emit (JudgeCall cached) >>
         let* keepToolResponse := await (judge_reply it) in
         match keepToolResponse with
         | [] => throw (TypeError "type")
         | TextBlock text :: _ =>
             let* st := get in
             let* saved := lift (judge_text text (savedToolResults st)) in
             set_saved saved
         | _ => ret tt
         end
     | _ => ret tt
     end
   else ret tt)%turn.

(** Lines 312-342: the streamed request. *)
Definition stream_phase (it : Iteration) (toSend : list ApiMessage)
    : M (list MessageContent) :=
  (emit (StreamCall toSend
           (match getUniqueTools comp false with
            | [] => None
            | _ => Some (getUniqueTools comp true)
            end)) >>
   on_text "" (stream_deltas it) >>
   await (stream_final it))%turn.

(** Lines 344-373: the title call. *)
Definition title_phase (it : Iteration) (cached : list ApiMessage) : M unit :=
  (match activeConversation comp, cached with
   | Some _, [first; second] =>
       emit (TitleCall (api_content first) (api_content second)) >>
       let* summaryResponse := await (title_reply it) in
       match summaryResponse with
       | [] => throw (TypeError "type")
       | TextBlock text :: _ =>
           match suggestedTitle text with
           | EmptyString => ret tt
           | title =>
               emit (RenameConversation (project_id project) conversationId title)
           end
       | _ => ret tt
       end
   | _, _ => ret tt
   end)%turn.

Definition toolResultMessage (id result : string) : Message :=
  {| role := user;
     content := Blocks [ToolResult id result false];
     toolInput := None |}.

Definition errorMessage (id : string) (e : Thrown) : Message :=
  {| role := user;
     content :=
       Blocks [ToolResult id
                 ("Error: " ++ match e with
                               | ErrorObj message => message
                               | NonError => "Unknown error"
                               end)
                 true];
     toolInput := None |}.

(** The [catch] of the tool dispatch, followed by the test that ends the
    loop body; [toolUseContent] is set there, so only the flag decides. *)
Definition tool_failed (id : string) (e : Thrown) : M Next :=
  (push (errorMessage id e) >>
   let* st := get in
   updateConversationMessages (currentMessages st) >>
   let* st := get in
   ret (if shouldCancel st then Break else Continue))%turn.

(** Lines 375-428: tool dispatch and the end of the loop body. *)
Definition tool_phase (it : Iteration) (finalResponse : list MessageContent)
    : M Next :=
  (match List.find is_tool_use finalResponse with
   | Some (ToolUse id name input) =>
       match serverWithTool comp name with
       | None => tool_failed id (ErrorObj ("No server found for tool " ++ name))
       | Some server =>
           emit (ExecuteTool (server_id server) name input) >>
           (if stop_pressed (tool_reply it) then cancelCurrentCall else ret tt) >>
           match settles (tool_reply it) with
           | Resolved result =>
               push (toolResultMessage id result) >>
               let* st := get in
               updateConversationMessages (currentMessages st) >>
               ret Continue                                 (* continue; *)
           | Rejected e => tool_failed id e
           end
       end
   | _ => ret Break
   end)%turn.

(** The first half of the loop body, lines 187-342: shape the payload, run
    the judge, send the request and wait for [finalResponse]. *)
Definition request_phase (it : Iteration)
    : M (list ApiMessage * list MessageContent) :=
  (let* st := get in
   let cached := cachedApiMessages (currentMessages st) in
   let newest := newestToolResultId (currentMessages st) in
   judge_phase it cached >>
   let* st := get in
   let toSend :=
     apiMessagesToSend (elideToolResults (settings project)) newest
                       (savedToolResults st) cached in
   let* finalResponse := stream_phase it toSend in
   ret (cached, finalResponse))%turn.

(** One pass through the body of [while (true)]. *)
Definition loop_body (it : Iteration) : M Next :=
  (let* sent := request_phase it in
   title_phase it sent.1 >>
   tool_phase it sent.2)%turn.

Fixpoint loop (script : list Iteration) : M Outcome :=
  match script with
  | [] => ret Pending
  | it :: rest =>
      let* next := loop_body it in
      match next with
      | Continue => loop rest
      | Break => ret Finished
      end
  end%turn.

Definition userMessage : Message :=
  {| role := user;
     content := Blocks [TextBlock (inputMessage comp)];
     toolInput := None |}.

(** The [try] block of [handleSendMessage]. *)
Definition try_block (script : list Iteration) : M Outcome :=
  (push userMessage >>
   let* st := get in
   updateConversationMessages (currentMessages st) >>
   loop script)%turn.

End Turn.

(** [activeConversation?.messages || []] *)
Definition history (comp : Component) : list Message :=
  match activeConversation comp with
  | Some c => messages c
  | None => []
  end.

(** The state [handleSendMessage] starts its [try] from: [currentMessages]
    is about to be [[...(activeConversation?.messages || []), userMessage]];
    [shouldCancelRef.current = false], [setIsLoading(true)] and
    [setError(null)] have run. *)
Definition initial (comp : Component) : State :=
  {| currentMessages := history comp;
     savedToolResults := ∅;
     shouldCancel := false;
     isLoading := true;
     error := None;
     trace := [] |}.

(** The state when [handleSendMessage] returns at one of its guards. *)
Definition guarded (err : option string) : State :=
  {| currentMessages := [];
     savedToolResults := ∅;
     shouldCancel := false;
     isLoading := false;
     error := err;
     trace := [] |}.

(** [error instanceof Error ? error.message : 'An error occurred'] *)
Definition error_text (e : Thrown) : string :=
  match e with
  | ErrorObj message => message
  | NonError => "An error occurred"
  end.

(** [catch (error)] then [finally]. *)
Definition settle (r : Res Outcome * State) : Outcome * State :=
  let st := r.2 in
  let finally err :=
    {| currentMessages := currentMessages st;
       savedToolResults := savedToolResults st;
       shouldCancel := false;
       isLoading := false;
       error := err;
       trace := trace st |} in
  match r.1 with
  | Ok o => (o, finally (error st))
  | Throw e =>
      (Failed e,
       finally (if shouldCancel st then error st else Some (error_text e)))
  end.

(** [handleSendMessage] against a scripted environment.  The guards test
    truthiness, so an empty string fails them like a missing value.  The
    banner shown before the call is taken to be empty; [setInputMessage('')]
    is not tracked. *)
Definition handleSendMessage (comp : Component) (script : list Iteration)
    : Outcome * State :=
  match Js.trim (inputMessage comp), activeProject comp, activeConversationId comp with
  | String _ _, Some project, Some (String c id) =>
      match apiKey (settings project) with
      | None | Some EmptyString =>
          (Skipped, guarded (Some "Please set your API key in settings"))
      | Some _ => settle (try_block comp project (String c id) script (initial comp))
      end
  | _, _, _ => (Skipped, guarded None)
  end.

(** The messages the store holds for the conversation after a trace: those
    of the latest [updateConversationMessages]. *)
Definition stored (tr : list Event) : option (list Message) :=
  last (omap (fun e => match e with
                       | UpdateMessages _ _ l => Some l
                       | _ => None
                       end) tr).

Definition stream_requests (tr : list Event) : list (list ApiMessage) :=
  omap (fun e => match e with StreamCall l _ => Some l | _ => None end) tr.

(** ** The store update behind [updateConversationMessages] *)

(** The [conversations] array that [updateConversationMessages] hands to
    [updateProjectSettings]: the closed-over project's conversations with
    the messages of the conversation of that id replaced and its
    [lastUpdated] set to [now], the time value of [new Date()]. *)
Definition updatedConversations (project : Project) (conversationId : string)
    (newMessages : list Message) (now : nat) : list ConversationBrief :=
  (fun conv =>
     if bool_decide (conversation_id conv = conversationId)
     then {| conversation_id := conversation_id conv;
             conversation_name := conversation_name conv;
             lastUpdated := now;
             messages := newMessages |}
     else conv) <$> conversations project.

(** ** What [renderMessage] shows *)

(** One element of the rendered list.  A tool_use block becomes a button
    that opens the tool call with the result found for it, if any. *)
Inductive Rendered :=
| TextBubble (from : Role) (text : string)
| ToolButton (from : Role) (name : string) (input : Json) (result : option string).

(** The search for the result of a tool_use (lines 508-517): the tool_result
    of that id in the message after the one rendered. *)
Definition toolResultFor (messages : list Message) (index : nat) (id : string)
    : option string :=
  match messages !! (index + 1) with
  | Some nextMessage =>
      match content nextMessage with
      | Blocks blocks =>
          match List.find (fun c => match c with
                                    | ToolResult i _ _ => bool_decide (i = id)
                                    | _ => false
                                    end) blocks with
          | Some (ToolResult _ result _) => Some result
          | _ => None
          end
      | Plain _ => None
      end
  | None => None
  end.

(** [renderMessage(message, index)] over the messages of the active
    conversation; [None] is the [null] returned for a block that is neither
    text nor tool_use. *)
Definition renderMessage (messages : list Message) (message : Message) (index : nat)
    : list (option Rendered) :=
  match content message with
  | Blocks blocks =>
      (fun c => match c with
                | TextBlock text => Some (TextBubble (role message) text)
                | ToolUse id name input =>
                    Some (ToolButton (role message) name input
                            (toolResultFor messages index id))
                | ToolResult _ _ _ => None
                end) <$> blocks
  | Plain s => [Some (TextBubble (role message) s)]
  end.

(** [activeConversation.messages.map((message, index) =>
    renderMessage(message, index))] *)
Definition renderConversation (messages : list Message) : list (list (option Rendered)) :=
  imap (fun index message => renderMessage messages message index) messages.

(** ** The sidebar ([ConversationSidebar]) *)

Module Sidebar.

(** [toggleProjectExpanded]: the updater handed to [setExpandedProjects]. *)
Definition toggleProjectExpanded (projectId : string) (prev : gset string)
    : gset string :=
  if bool_decide (projectId ∈ prev) then prev ∖ {[projectId]}
  else {[projectId]} ∪ prev.


(** Calls the sidebar makes on the store. *)
Inductive Action :=
| CreateConversation (projectId : string)
| SetActiveConversation (conversationId : string)
| SetActiveProject (projectId : string)
| RenameProject (projectId newName : string)
| RenameConversation (projectId conversationId newName : string).

(** [handleProjectSelect(projectId, shouldCreateChat)] *)
Definition handleProjectSelect (projects : list Project)
    (lastActiveConversations : gmap string string)
    (projectId : string) (shouldCreateChat : bool) : list Action :=
  match List.find (fun p => bool_decide (project_id p = projectId)) projects with
  | None => []
  | Some project =>
      match conversations project with
      | [] => if shouldCreateChat then [CreateConversation projectId] else []
      | newest :: _ =>
          match lastActiveConversations !! projectId with
          | Some (String c last) =>
              if existsb (fun conv => bool_decide (conversation_id conv = String c last))
                         (conversations project)
              then [SetActiveConversation (String c last)]
              else [SetActiveConversation (conversation_id newest)]
          | _ => [SetActiveConversation (conversation_id newest)]
          end
      end ++ [SetActiveProject projectId]
  end.

(** The item the rename dialog is about. *)
Inductive RenameItem :=
| ProjectItem (projectId : string)
| ConversationItem (projectId : string) (conversationId : option string).

Record RenameDialog := mkRenameDialog {
  showRenameDialog : bool;
  renameItem : option RenameItem;
  newName : string;
}.

(** The [onSubmit] of the rename form: the calls made and the dialog
    after it. *)
Definition submitRename (d : RenameDialog) : list Action * RenameDialog :=
  match renameItem d, Js.trim (newName d) with
  | Some item, String c name =>
      (match item with
       | ProjectItem projectId => [RenameProject projectId (String c name)]
       | ConversationItem projectId (Some (String k conv)) =>
           [RenameConversation projectId (String k conv) (String c name)]
       | ConversationItem _ _ => []
       end,
       {| showRenameDialog := false; renameItem := None; newName := EmptyString |})
  | _, _ => ([], d)
  end.

End Sidebar.

(** * Notions used to state the properties *)

(** ** Cache markers of a shaped payload *)

Definition payload_blocks (payload : list ApiMessage) (i : nat) : list ApiBlock :=
  match payload !! i with
  | Some m => block_list (api_content m)
  | None => []
  end.

(** Block [j] of message [i] of the payload carries [cache_control]. *)
Definition marked (payload : list ApiMessage) (i j : nat) : bool :=
  match payload_blocks payload i !! j with
  | Some b => cache_control b
  | None => false
  end.

Definition marked_count (payload : list ApiMessage) : nat :=
  length (List.filter cache_control
            (payload ≫= (fun m => block_list (api_content m)))).

(** The marking as the specification words it: the one marked block is the
    last block of the very last message. *)
Definition marks_only_last_block (msgs : list Message) : Prop :=
  ∀ i j : nat,
    marked (cachedApiMessages msgs) i j = true ↔
    i + 1 = length msgs ∧ j + 1 = length (payload_blocks (cachedApiMessages msgs) i).

Definition text_message (r : Role) (text : string) : Message :=
  {| role := r; content := Blocks [TextBlock text]; toolInput := None |}.

Definition two_messages : list Message :=
  [text_message user "What is 2+2?"; text_message assistant "4"].

(** ** Verdict lines *)

Inductive Verdict := Yes | No.

(** What one reply line says about which id, read the way the judging prompt
    asks for it: [<tool_use_id>: Yes] or [<tool_use_id>: No]. *)
Definition verdict_of (line : string) : option (string * Verdict) :=
  match Js.split ": " line with
  | key :: value :: _ =>
      if bool_decide (Js.trim value = "Yes") then Some (key, Yes)
      else if bool_decide (Js.trim value = "No") then Some (key, No)
      else None
  | _ => None
  end.

Definition verdict_on (id : string) (line : string) : option Verdict :=
  match verdict_of line with
  | Some (key, v) => if bool_decide (key = id) then Some v else None
  | None => None
  end.

(** The last verdict the lines give on [id], if any. *)
Definition last_verdict (lines : list string) (id : string) : option Verdict :=
  last (omap (verdict_on id) lines).

(** The line has the [': '] separator, so that [value] is defined. *)
Definition separated (line : string) : Prop :=
  2 ≤ length (Js.split ": " line).

(** ** The newest tool result in a payload *)

(** The outbound payload of a history under a given saved set, with
    [elideToolResults] on. *)
Definition outbound (msgs : list Message) (saved : gset string) : list ApiMessage :=
  apiMessagesToSend true (newestToolResultId msgs) saved (cachedApiMessages msgs).

(** Message [i] is the last message of the history that holds a tool
    result: it holds the most recent ToolResult. *)
Definition holds_newest_result (msgs : list Message) (i : nat) : Prop :=
  (∃ m, msgs !! i = Some m ∧ result_ids m ≠ [])
  ∧ ∀ j m', i < j → msgs !! j = Some m' → result_ids m' = [].

(** The claim as worded: whatever the judge said, the message holding the
    most recent ToolResult goes out as shaped, nothing elided. *)
Definition never_elides_newest (msgs : list Message) (saved : gset string) : Prop :=
  ∀ i, holds_newest_result msgs i → outbound msgs saved !! i = cachedApiMessages msgs !! i.

(** A history whose last message answers two tool calls at once. *)
Definition two_results : list Message :=
  [text_message user "compare the two files";
   {| role := user;
      content := Blocks [ToolResult "toolu_a" "first file" false;
                         ToolResult "toolu_b" "second file" false];
      toolInput := None |}].

(** A history as the loop itself builds it: one result per message. *)
Definition one_result_each : list Message :=
  [text_message user "look it up";
   {| role := user; content := Blocks [ToolResult "toolu_a" "old" false];
      toolInput := None |};
   {| role := user; content := Blocks [ToolResult "toolu_b" "new" false];
      toolInput := None |}].

(** ** Runs *)

Definition search : McpTool :=
  {| tool_name := "search"; tool_description := "Search the web";
     input_schema := "{}" |}.

Definition search_server (id : string) : McpServer :=
  {| server_id := id; server_tools := Some [search] |}.

(** A project with one conversation named "New Chat"; [history] is what
    the store holds for it, [configured] the project's [mcpServers]. *)
Definition chat_project (elide : bool) (configured : list McpServer)
    (history : list Message) : Project :=
  {| project_id := "p1";
     settings := {| apiKey := Some "sk-test"; model := "";
                    systemPrompt := ""; mcpServers := configured;
                    elideToolResults := elide |};
     conversations :=
       [{| conversation_id := "c1"; conversation_name := "New Chat";
           lastUpdated := 0; messages := history |}] |}.

(** The component showing that conversation; [connected] are the servers of
    the MCP state, [input] the text in the input box. *)
Definition chat (elide : bool) (configured connected : list McpServer)
    (history : list Message) (input : string) : Component :=
  {| projects := [chat_project elide configured history];
     activeProjectId := Some "p1";
     activeConversationId := Some "c1";
     inputMessage := input;
     servers := connected |}.

Definition resolved {A} (a : A) : Await A :=
  {| settles := Resolved a; stop_pressed := false |}.

(** A call the pass is not expected to make. *)
Definition unused {A} : Await A :=
  {| settles := Rejected NonError; stop_pressed := false |}.

(** A pass in which the provider streams [text] and ends without tool use. *)
Definition says (text : string) : Iteration :=
  {| judge_reply := unused; stream_deltas := [text];
     stream_final := resolved [TextBlock text];
     title_reply := unused; tool_reply := unused |}.

(** A pass in which the provider asks for [search] under id [id]. *)
Definition asks_search (id : string) (executed : Await string) : Iteration :=
  {| judge_reply := unused; stream_deltas := ["Searching"];
     stream_final := resolved [TextBlock "Searching"; ToolUse id "search" "{}"];
     title_reply := unused; tool_reply := executed |}.

Definition with_title (reply : Await (list MessageContent)) (it : Iteration)
    : Iteration :=
  {| judge_reply := judge_reply it; stream_deltas := stream_deltas it;
     stream_final := stream_final it; title_reply := reply;
     tool_reply := tool_reply it |}.

Definition with_judge (reply : Await (list MessageContent)) (it : Iteration)
    : Iteration :=
  {| judge_reply := reply; stream_deltas := stream_deltas it;
     stream_final := stream_final it; title_reply := title_reply it;
     tool_reply := tool_reply it |}.

Definition title_calls (tr : list Event) : nat :=
  length (List.filter (fun e => match e with TitleCall _ _ => true | _ => false end) tr).

Definition executed_on (tr : list Event) : list string :=
  omap (fun e => match e with ExecuteTool s _ _ => Some s | _ => None end) tr.

Definition renamed_to (tr : list Event) : list string :=
  omap (fun e => match e with RenameConversation _ _ n => Some n | _ => None end) tr.

(** *** Tool results paired with tool uses *)

Definition uses (m : Message) : list string :=
  omap (fun c => match c with ToolUse i _ _ => Some i | _ => None end)
       (block_list (content m)).

(** Every tool result of the list answers a tool_use of the message just
    before its own: the stored shape the specification describes, and the
    one [renderMessage] relies on when it looks for the result of a tool_use
    in [messages[index + 1]]. *)
Fixpoint results_follow_uses (prev : list string) (msgs : list Message) : bool :=
  match msgs with
  | [] => true
  | m :: rest =>
      forallb (fun id => bool_decide (id ∈ prev)) (result_ids m)
      && results_follow_uses (uses m) rest
  end.

(** *** What the working list holds *)

(** A message as the tool dispatch appends it: from [user], one tool-result
    block. *)
Definition is_result_message (m : Message) : Prop :=
  role m = user ∧ ∃ id c e, content m = Blocks [ToolResult id c e].

(** [cur] is [base] followed by tool-result messages only. *)
Definition grown_by_results (base cur : list Message) : Prop :=
  ∃ results, cur = base ++ results ∧ Forall is_result_message results.

(** What a call may carry if the assistant's reply never enters the working
    list: a store update is the working list, or the working list followed
    by the text-only streamed message; a request is shaped from the working
    list. *)
Definition carries_no_reply (elide : bool) (base : list Message) (e : Event) : Prop :=
  match e with
  | UpdateMessages _ _ l =>
      grown_by_results base l
      ∨ ∃ cur text,
          grown_by_results base cur
          ∧ l = cur ++ [{| role := assistant; content := Blocks [TextBlock text];
                           toolInput := None |}]
  | StreamCall payload _ =>
      ∃ cur saved,
        grown_by_results base cur
        ∧ payload = apiMessagesToSend elide (newestToolResultId cur) saved
                                      (cachedApiMessages cur)
  | _ => True
  end.

(** The first server, among those the project configures, that advertises
    the tool: the owner as the specification words it. *)
Definition configured_owner (comp : Component) (name : string) : option McpServer :=
  p ← activeProject comp;
  List.find
    (fun s =>
       existsb (fun configuredServer =>
                  bool_decide (server_id configuredServer = server_id s))
               (mcpServers (settings p))
       && match server_tools s with
          | Some tools => existsb (fun t => bool_decide (tool_name t = name)) tools
          | None => false
          end)
    (servers comp).

(** The turn ran to its end with no error shown. *)
Definition unaffected (r : Outcome * State) : Prop :=
  r.1 = Finished ∧ error r.2 = None.

(** The state of a turn whose working list is the base followed by tool
    results only, and whose calls so far carry no reply. *)
Definition working_list_ok (elide : bool) (base : list Message) (st : State) : Prop :=
  grown_by_results base (currentMessages st)
  ∧ Forall (carries_no_reply elide base) (trace st).

(** A computation keeps a state property, whether it returns or throws. *)
Definition preserves (I : State → Prop) {A} (m : M A) : Prop :=
  ∀ st, I st → I (m st).2.

(** *** Scenarios *)

Definition srv : McpServer := search_server "srv".

(** A brand-new conversation in a project whose one server offers
    [search]. *)
Definition new_chat (elide : bool) (input : string) : Component :=
  chat elide [srv] [srv] [] input.

(** The provider asks for [search] once, the tool answers, the provider then
    replies in plain text.  The second pass sends two messages, so it also
    makes the title call. *)
Definition one_tool_call : list Iteration :=
  [asks_search "t1" (resolved "42 results");
   with_title (resolved [TextBlock "Search results"]) (says "Done")].

(** The same, with the stop button pressed while the tool runs. *)
Definition stop_during_tool (executed : Settled string) : list Iteration :=
  [asks_search "t1" {| settles := executed; stop_pressed := true |};
   with_title (resolved [TextBlock "Search results"]) (says "Done")].

(** The same, with elision on and a judge whose reply ends in a newline. *)
Definition judge_reply_with_newline : list Iteration :=
  [asks_search "t1" (resolved "42 results");
   with_judge (resolved [TextBlock ("t1: Yes" +:+ LF)])
     (with_title (resolved [TextBlock "Search results"]) (says "Done"))].

(** The same, with a judge that adds a remark after its verdict. *)
Definition judge_reply_with_remark : list Iteration :=
  [asks_search "t1" (resolved "42 results");
   with_judge (resolved [TextBlock ("t1: Yes" +:+ LF +:+ "Done.")])
     (with_title (resolved [TextBlock "Search results"]) (says "Done"))].

(** The title call of the second pass is rejected, in a pass whose final
    response asks for another tool call. *)
Definition title_call_rejected : list Iteration :=
  [asks_search "t1" (resolved "42 results");
   with_title {| settles := Rejected (ErrorObj "529 overloaded");
                 stop_pressed := false |}
     (asks_search "t2" (resolved "7 results"));
   says "Done"].

(** Two connected servers offer [search]; the project configures only the
    second. *)
Definition two_servers (input : string) : Component :=
  chat false [search_server "proj"] [search_server "other"; search_server "proj"]
       [] input.

(** Number of requests sent after the first tool execution started. *)
Fixpoint requests_after_tool (tr : list Event) : nat :=
  match tr with
  | [] => 0
  | ExecuteTool _ _ _ :: rest => length (stream_requests rest)
  | _ :: rest => requests_after_tool rest
  end.

(** The final response of the pass asks for a tool. *)
Definition asks_for_tool (it : Iteration) : Prop :=
  ∃ finalResponse id name input,
    settles (stream_final it) = Resolved finalResponse
    ∧ List.find is_tool_use finalResponse = Some (ToolUse id name input).

(** A state with the two-message working list of the second pass of
    [one_tool_call]. *)
Definition second_pass : State :=
  {| currentMessages := [text_message user "find it";
                         {| role := user;
                            content := Blocks [ToolResult "t1" "42 results" false];
                            toolInput := None |}];
     savedToolResults := ∅;
     shouldCancel := false;
     isLoading := true;
     error := None;
     trace := [] |}.

(** ** Further notions *)

(** Stored content read as a list of blocks: a plain string is one text
    block. *)
Definition as_blocks (c : Content MessageContent) : list MessageContent :=
  match c with
  | Blocks l => l
  | Plain s => [TextBlock s]
  end.

(** The blocks a payload message carries, markers set aside. *)
Definition sent_blocks (m : ApiMessage) : list MessageContent :=
  match api_content m with
  | Blocks l => blk <$> l
  | Plain s => [TextBlock s]
  end.

(** [pat] occurs somewhere in [s]. *)
Fixpoint occurs (pat s : string) : bool :=
  String.prefix pat s
  || match s with
     | EmptyString => false
     | String _ rest => occurs pat rest
     end.

(** The tools of the connected servers that the project configures, in
    server order: what [getUniqueTools] picks from. *)
Definition offered (comp : Component) (project : Project) : list McpTool :=
  List.filter
    (fun server =>
       existsb (fun configuredServer =>
                  bool_decide (server_id configuredServer = server_id server))
               (mcpServers (settings project)))
    (servers comp)
  ≫= (fun s => default [] (server_tools s)).

(** Number of cache markers on one payload message. *)
Definition marks_of (m : ApiMessage) : nat :=
  length (List.filter cache_control (block_list (api_content m))).

(** A stored block after [{ ...block, content: 'elided' }], markers and
    stray keys set aside: a tool result loses its content, any other block
    reads as before. *)
Definition elided_block (c : MessageContent) : MessageContent :=
  match c with
  | ToolResult id _ e => ToolResult id "elided" e
  | other => other
  end.

(** A history with an old result, a newer one, and a question after them. *)
Definition old_and_new_results : list Message :=
  [text_message user "look it up";
   {| role := user; content := Blocks [ToolResult "toolu_a" "old" false];
      toolInput := None |};
   {| role := user; content := Blocks [ToolResult "toolu_b" "new" true];
      toolInput := None |};
   text_message assistant "Here is what I found."].

(** A string has no white space at either end. *)
Definition trimmed (s : string) : Prop := Js.trim s = s.

(** The conversation of that id, as [find] returns it. *)
Definition conversation_of (conversationId : string) (convs : list ConversationBrief)
    : option ConversationBrief :=
  List.find (fun c => bool_decide (conversation_id c = conversationId)) convs.

(** The name a sidebar action gives to a project or a conversation. *)
Definition new_name_of (a : Sidebar.Action) : option string :=
  match a with
  | Sidebar.RenameProject _ name => Some name
  | Sidebar.RenameConversation _ _ name => Some name
  | _ => None
  end.

(** The conversation with its messages replaced at the given time. *)
Definition with_messages (newMessages : list Message) (now : nat)
    (conv : ConversationBrief) : ConversationBrief :=
  {| conversation_id := conversation_id conv;
     conversation_name := conversation_name conv;
     lastUpdated := now;
     messages := newMessages |}.

(** The lists handed to [updateConversationMessages] in a trace. *)
Definition updates (tr : list Event) : list (list Message) :=
  omap (fun e => match e with UpdateMessages _ _ l => Some l | _ => None end) tr.

Definition is_bubble (r : option Rendered) : Prop :=
  match r with
  | Some (ToolButton _ _ _ _) => False
  | _ => True
  end.

(** Some character of the string is in the class. *)
Fixpoint has_char (cls : ascii → bool) (s : string) : bool :=
  match s with
  | EmptyString => false
  | String c rest => cls c || has_char cls rest
  end.

(** What can be said of every call a turn makes, kind by kind: store
    updates and renames address the active project and conversation, a
    request lists the tools [getUniqueTools] gives, a tool runs on the server
    the dispatch found for its name, a rename carries a non-empty cleaned-up
    title. *)
Definition known_call (comp : Component) (project : Project) (conversationId : string)
    (e : Event) : Prop :=
  match e with
  | UpdateMessages p c _ => p = project_id project ∧ c = conversationId
  | JudgeCall _ => True
  | StreamCall _ tools =>
      tools = match getUniqueTools comp false with
              | [] => None
              | _ => Some (getUniqueTools comp true)
              end
  | TitleCall _ _ => True
  | ExecuteTool serverId name _ =>
      ∃ server, serverWithTool comp name = Some server ∧ server_id server = serverId
  | RenameConversation p c name =>
      p = project_id project ∧ c = conversationId
      ∧ name ≠ EmptyString ∧ ∃ text, name = suggestedTitle text
  end.

(** The banner and the cancel flag agree: either nothing is shown and the
    flag is down, or 'Operation cancelled' is shown and the flag is up. *)
Definition banner_agrees (st : State) : Prop :=
  (error st = None ∧ shouldCancel st = false)
  ∨ (error st = Some "Operation cancelled" ∧ shouldCancel st = true).

(** The trace starts with the given call. *)
Definition starts_with (e : Event) (st : State) : Prop :=
  ∃ rest, trace st = e :: rest.

(** The state with further calls recorded. *)
Definition add_calls (calls : list Event) (st : State) : State :=
  {| currentMessages := currentMessages st;
     savedToolResults := savedToolResults st;
     shouldCancel := shouldCancel st;
     isLoading := isLoading st;
     error := error st;
     trace := trace st ++ calls |}.

(** The store updates of a stream: after each delta, the working list
    followed by the message streamed so far. *)
Fixpoint upserts (projectId conversationId : string) (working : list Message)
    (text : string) (deltas : list string) : list Event :=
  match deltas with
  | [] => []
  | delta :: rest =>
      UpdateMessages projectId conversationId
        (working ++ [{| role := assistant;
                        content := Blocks [TextBlock (text +:+ delta)];
                        toolInput := None |}])
      :: upserts projectId conversationId working (text +:+ delta) rest
  end.

(** The deltas put together. *)
Definition streamed (deltas : list string) : string :=
  foldr String.append EmptyString deltas.

(** What the dispatch appends for a tool_use of the given id. *)
Definition result_message (id text : string) (is_error : bool) : Message :=
  {| role := user; content := Blocks [ToolResult id text is_error]; toolInput := None |}.

(** From a state satisfying [P] the computation ends in a state satisfying
    [Q] of its result, or throws in a state satisfying [E]. *)
Definition triple (P : State → Prop) {A} (m : M A) (Q : A → State → Prop)
    (E : State → Prop) : Prop :=
  ∀ st, P st → match m st with
               | (Ok a, st') => Q a st'
               | (Throw _, st') => E st'
               end.

Definition requests_made (st : State) : nat := length (stream_requests (trace st)).
Definition tools_run (st : State) : nat := length (executed_on (trace st)).
Definition titles_asked (st : State) : nat := title_calls (trace st).

(** Between passes: at most one title call so far, and if there was one the
    working list has outgrown the two messages that trigger it. *)
Definition title_spent (st : State) : Prop :=
  titles_asked st ≤ 1 ∧ (titles_asked st = 1 → 2 < length (currentMessages st)).

(** A string given by the bytes of its encoding. *)
Definition bytes (l : list nat) : string :=
  foldr (fun n s => String (ascii_of_nat n) s) EmptyString l.

(** U+00A0, the no-break space. *)
Definition NBSP : string := bytes [194; 160].

(** The characters [trim] strips, each in its encoding: U+0009 to U+000D,
    U+0020, U+00A0, U+1680, U+2000 to U+200A, U+2028, U+2029, U+202F,
    U+205F, U+3000 and U+FEFF. *)
Definition white_space : list string :=
  bytes <$> [[9]; [10]; [11]; [12]; [13]; [32]; [194; 160]; [225; 154; 128];
             [226; 128; 128]; [226; 128; 129]; [226; 128; 130]; [226; 128; 131];
             [226; 128; 132]; [226; 128; 133]; [226; 128; 134]; [226; 128; 135];
             [226; 128; 136]; [226; 128; 137]; [226; 128; 138];
             [226; 128; 168]; [226; 128; 169]; [226; 128; 175];
             [226; 129; 159]; [227; 128; 128]; [239; 187; 191]].

(** Characters [trim] leaves alone although their encoding is close to
    that of a white-space character: U+0085, U+00E0 (its last byte is that
    of U+00A0), U+180E, U+200B and U+2060. *)
Definition no_white_space : list string :=
  bytes <$> [[194; 133]; [195; 160]; [225; 160; 142]; [226; 128; 139];
             [226; 129; 160]].

(** A listed tool without its cache marker. *)
Definition unmarked (t : ApiTool) : ApiTool :=
  {| api_tool_name := api_tool_name t;
     api_tool_description := api_tool_description t;
     api_tool_input_schema := api_tool_input_schema t;
     api_tool_cache_control := false |}.

(** Two connected servers, both configured by the project, each offer a
    tool named [search], with different descriptions and schemas, and one
    more tool each. *)
Definition fetch : McpTool :=
  {| tool_name := "fetch"; tool_description := "Fetch a page";
     input_schema := "{url}" |}.

Definition search_files : McpTool :=
  {| tool_name := "search"; tool_description := "Search local files";
     input_schema := "{path}" |}.

Definition read_file : McpTool :=
  {| tool_name := "read"; tool_description := "Read a file";
     input_schema := "{path}" |}.

Definition web : McpServer :=
  {| server_id := "web"; server_tools := Some [search; fetch] |}.

Definition files : McpServer :=
  {| server_id := "files"; server_tools := Some [search_files; read_file] |}.

Definition same_name_tools : Component :=
  chat false [files; web] [web; files] [] "find it".


(** The stop button is pressed during one of the calls the pass may
    await. *)
Definition stop_in (it : Iteration) : bool :=
  stop_pressed (judge_reply it) || stop_pressed (stream_final it)
  || stop_pressed (title_reply it) || stop_pressed (tool_reply it).

(** What the banner shows once the turn is over, given whether the cancel
    flag was up when the [try] block was left and how it was left. *)
Definition banner (cancelled : bool) (r : Res Outcome) : option string :=
  if cancelled then Some "Operation cancelled"
  else match r with
       | Ok _ => None
       | Throw e => Some (error_text e)
       end.

(** The guards at the top of [handleSendMessage] let the turn through:
    the input is not blank, a project and a conversation are active, and
    the project has an API key. *)
Definition passes_guards (comp : Component) : Prop :=
  Js.trim (inputMessage comp) ≠ EmptyString
  ∧ ∃ project, activeProject comp = Some project
      ∧ (∃ id, activeConversationId comp = Some id ∧ id ≠ EmptyString)
      ∧ (∃ key, apiKey (settings project) = Some key ∧ key ≠ EmptyString).

(** The cancel flag is down. *)
Definition flag_down (st : State) : Prop := shouldCancel st = false.

(** The start of a later pass of a turn, with elision on: the working list
    ends in the result of [toolu_b], and [toolu_a] was saved in an earlier
    pass, as was [toolu_old]. *)
Definition after_two_results : State :=
  {| currentMessages := one_result_each;
     savedToolResults := {[ "toolu_a"; "toolu_old" ]};
     shouldCancel := false;
     isLoading := true;
     error := None;
     trace := [] |}.

(** A judge reply that rates [toolu_b] Yes, No and Yes again, the last time
    with white space around the answer, and [toolu_a] No. *)
Definition mixed_verdicts : string :=
  "toolu_b: Yes" +:+ LF +:+ "toolu_a: No" +:+ LF +:+ "toolu_b: No" +:+ LF
  +:+ "toolu_b:  Yes" +:+ NBSP.

(** * Properties *)

(** ** The cache markers of a shaped payload *)

Lemma mark_last_lookup (l : list ApiBlock) (j : nat) :
  mark_last l !! j =
  (fun c => if Nat.eqb (j + 1) (length l) then ephemeral c else c) <$> l !! j.
Proof. unfold mark_last. by rewrite list_lookup_imap. Qed.

Lemma mark_last_length (l : list ApiBlock) : length (mark_last l) = length l.
Proof. unfold mark_last. by rewrite length_imap. Qed.

Lemma cached_lookup (msgs : list Message) (i : nat) :
  cachedApiMessages msgs !! i = shape_message (length msgs) i <$> msgs !! i.
Proof. unfold cachedApiMessages. by rewrite list_lookup_imap. Qed.

Lemma cached_length (msgs : list Message) :
  length (cachedApiMessages msgs) = length msgs.
Proof. unfold cachedApiMessages. by rewrite length_imap. Qed.

(** C2, counterexample: with two stored messages the payload carries two
    markers, one of them on the first message. *)
Lemma C2_two_messages_two_markers :
  ¬ marks_only_last_block two_messages
  ∧ marked_count (cachedApiMessages two_messages) = 2.
Proof.
  split; [|reflexivity].
  intros H. destruct (H 0 0) as [H0 _].
  destruct H0 as [Hlast _]; [reflexivity|]. discriminate Hlast.
Qed.

(** C2, as the code has it: a block of the shaped payload is marked
    cache-eligible exactly when it is the last block of one of the last three
    messages; nothing before that window is marked.  (A plain-text message in
    the window counts as its one normalised block.) *)
Theorem C2_marks_last_block_of_each_window_message (msgs : list Message) (i j : nat) :
  marked (cachedApiMessages msgs) i j = true ↔
  i < length msgs ∧ length msgs ≤ i + 3
  ∧ j + 1 = length (payload_blocks (cachedApiMessages msgs) i).
Proof.
  unfold marked, payload_blocks. rewrite cached_lookup.
  destruct (msgs !! i) as [m|] eqn:Hm; simpl.
  - apply lookup_lt_Some in Hm as Hlt.
    unfold shape_message.
    destruct (Nat.ltb_spec (i + 3) (length msgs)) as [Hin|Hout]; simpl.
    + destruct (content m) as [l|s]; simpl.
      * rewrite list_lookup_fmap.
        destruct (l !! j); simpl; split; try discriminate; lia.
      * split; [discriminate | lia].
    + destruct (content m) as [l|s]; simpl.
      * rewrite mark_last_lookup, mark_last_length, list_lookup_fmap, length_fmap.
        destruct (l !! j) as [c|] eqn:Hc; simpl.
        -- destruct (Nat.eqb_spec (j + 1) (length l)); simpl;
             split; intros; try discriminate; try lia; done.
        -- apply lookup_ge_None in Hc. split; [discriminate | lia].
      * destruct j; simpl; split; intros; try discriminate; try lia; done.
  - apply lookup_ge_None in Hm. split; [discriminate | lia].
Qed.

(** ** The saved set *)

Lemma judge_line_separated (saved : gset string) (line : string) :
  separated line → ∃ saved', judge_line saved line = Ok saved'.
Proof.
  unfold separated, judge_line. intros Hsep.
  destruct (Js.split ": " line) as [|key [|value more]]; simpl in Hsep; try lia.
  repeat case_bool_decide; eauto.
Qed.

(** One line moves an id in or out of the set as its verdict says, and
    leaves the other ids alone. *)
Lemma judge_line_elem (saved saved' : gset string) (line id : string) :
  judge_line saved line = Ok saved' →
  id ∈ saved' ↔
  match verdict_on id line with
  | Some Yes => True
  | Some No => False
  | None => id ∈ saved
  end.
Proof.
  unfold judge_line, verdict_on, verdict_of.
  destruct (Js.split ": " line) as [|key [|value more]]; try discriminate.
  destruct (bool_decide (Js.trim value = "Yes"));
    [|destruct (bool_decide (Js.trim value = "No"))];
    intros [= <-]; destruct (decide (key = id)) as [->|Hne];
    rewrite ?bool_decide_eq_true_2, ?bool_decide_eq_false_2 by done;
    simpl; set_solver.
Qed.

Lemma last_verdict_cons (line : string) (lines : list string) (id : string) :
  last_verdict (line :: lines) id =
  match last_verdict lines id with
  | Some v => Some v
  | None => verdict_on id line
  end.
Proof.
  unfold last_verdict. simpl.
  destruct (verdict_on id line) as [v|]; simpl.
  - rewrite last_cons. by destruct (last _).
  - by destruct (last _).
Qed.

Lemma judge_lines_elem (lines : list string) :
  ∀ (saved saved' : gset string) (id : string),
    judge_lines lines saved = Ok saved' →
    id ∈ saved' ↔
    last_verdict lines id = Some Yes
    ∨ (last_verdict lines id = None ∧ id ∈ saved).
Proof.
  induction lines as [|line rest IH]; intros saved saved' id; simpl.
  - intros [= <-]. unfold last_verdict; simpl. naive_solver.
  - destruct (judge_line saved line) as [saved1|e] eqn:Hline; [|discriminate].
    intros Hrest. rewrite (IH _ _ id Hrest), last_verdict_cons.
    pose proof (judge_line_elem _ _ _ id Hline) as Hone.
    destruct (last_verdict rest id) as [[]|]; [naive_solver..|].
    destruct (verdict_on id line) as [[]|]; naive_solver.
Qed.

Lemma judge_lines_total (lines : list string) :
  ∀ saved : gset string,
    Forall separated lines → ∃ saved', judge_lines lines saved = Ok saved'.
Proof.
  induction lines as [|line rest IH]; intros saved Hall; simpl; [eauto|].
  inversion Hall as [|? ? Hline Hrest]; subst.
  destruct (judge_line_separated saved line Hline) as [saved1 ->].
  by apply IH.
Qed.

(** C9: the judge rates [t1] with Yes and adds a remark on a line of its
    own.  The last verdict the lines give on [t1] is Yes, yet no saved set
    comes out of them: the fold throws at the remark, the turn fails, and
    the request whose payload the set was for is never built. *)
Theorem C9_no_saved_set_after_stray_line :
  last_verdict ["t1: Yes"; "Done."] "t1" = Some Yes
  ∧ judge_text ("t1: Yes" +:+ LF +:+ "Done.") ∅ = Throw (TypeError "trim")
  ∧ let r := handleSendMessage (new_chat true "find it") judge_reply_with_remark in
    r.1 = Failed (TypeError "trim")
    ∧ error r.2 = Some "Cannot read properties of undefined (reading 'trim')"
    ∧ length (stream_requests (trace r.2)) = 1.
Proof. vm_compute. done. Qed.

(** ** The newest tool result is exempt *)

Lemma blk_mark_last (l : list ApiBlock) : blk <$> mark_last l = blk <$> l.
Proof.
  apply list_eq. intros j.
  rewrite !list_lookup_fmap, mark_last_lookup.
  destruct (l !! j) as [c|]; simpl; [|done].
  by destruct (Nat.eqb _ _).
Qed.

(** Shaping keeps the stored blocks of a block-list message, in order. *)
Lemma shape_message_blocks (len i : nat) (m : Message) (l : list MessageContent) :
  content m = Blocks l →
  ∃ al, api_content (shape_message len i m) = Blocks al ∧ blk <$> al = l.
Proof.
  intros Hc. unfold shape_message. destruct (Nat.ltb _ _); simpl; rewrite Hc.
  - eexists; split; [done|]. rewrite <- list_fmap_compose. apply list_fmap_id.
  - eexists; split; [done|]. rewrite blk_mark_last, <- list_fmap_compose.
    apply list_fmap_id.
Qed.

(** What [find] returns on the payload blocks is the first tool result of
    the stored blocks. *)
Lemma find_tool_result_head (al : list ApiBlock) :
  (List.find (fun c => is_tool_result (blk c)) al ≫= fun c => tool_result_id (blk c))
  = head (omap tool_result_id (blk <$> al)).
Proof.
  induction al as [|c al IH]; simpl; [done|].
  destruct (blk c) eqn:Hb; simpl; rewrite ?Hb; try exact IH; done.
Qed.

Lemma find_tool_result_is_result (al : list ApiBlock) (c : ApiBlock) :
  List.find (fun c => is_tool_result (blk c)) al = Some c →
  ∃ id, tool_result_id (blk c) = Some id.
Proof.
  intros [_ H]%find_some. destruct (blk c); try discriminate. eauto.
Qed.

(** A message whose first tool result carries the newest id is sent as it
    was shaped, whatever the saved set holds. *)
Lemma elide_message_newest (len i : nat) (m : Message) (saved : gset string)
    (newest : option string) :
  result_ids m ≠ [] →
  head (result_ids m) = newest →
  elide_message newest saved (shape_message len i m) = shape_message len i m.
Proof.
  intros Hne Hhead. unfold elide_message.
  destruct (content m) as [l|s] eqn:Hc.
  - destruct (shape_message_blocks len i m l Hc) as (al & -> & Hal).
    pose proof (find_tool_result_head al) as Hfind.
    rewrite Hal in Hfind. unfold result_ids in Hhead. rewrite Hc in Hhead.
    simpl in Hhead. rewrite Hhead in Hfind.
    destruct (List.find _ al) as [c|] eqn:Hc'; [|done].
    destruct (find_tool_result_is_result al c Hc') as [id Hid].
    simpl in Hfind. rewrite Hid in Hfind. rewrite Hid.
    rewrite bool_decide_eq_true_2 by done. done.
  - unfold result_ids in Hne. rewrite Hc in Hne. done.
Qed.

Lemma concat_result_ids_nil (post : list Message) :
  (∀ j m', post !! j = Some m' → result_ids m' = []) →
  concat (result_ids <$> post) = [].
Proof.
  induction post as [|m post IH]; intros Hall; [done|].
  rewrite fmap_cons, concat_cons, (Hall 0 m eq_refl), IH; [done|].
  intros j m' Hj. by apply (Hall (S j)).
Qed.

(** The newest id is the last id of the last message that holds a result. *)
Lemma newest_of_holder (msgs : list Message) (i : nat) (m : Message) :
  holds_newest_result msgs i → msgs !! i = Some m →
  newestToolResultId msgs = last (result_ids m).
Proof.
  intros [[m0 [Hm0 Hne]] Hafter] Hm.
  rewrite Hm in Hm0. injection Hm0 as <-.
  unfold newestToolResultId.
  rewrite <- (take_drop_middle msgs i m Hm) at 1.
  rewrite fmap_app, fmap_cons, concat_app, concat_cons.
  rewrite (concat_result_ids_nil (drop (S i) msgs)), app_nil_r.
  - destruct (result_ids m) as [|x l] eqn:Hr; [done|].
    rewrite <- Hr. rewrite last_app. rewrite Hr. rewrite last_cons.
    by destruct (last l).
  - intros j m' Hj. rewrite lookup_drop in Hj. eapply Hafter; [|done]. lia.
Qed.

(** C4, counterexample: when the last message answers two tool calls and the
    judge kept neither, the payload replaces the whole message by the first
    result with its content elided, and the newest result is gone. *)
Lemma C4_second_result_of_message_elided :
  ¬ never_elides_newest two_results ∅
  ∧ payload_blocks (outbound two_results ∅) 1
    = [bare (ToolResult "toolu_a" "elided" false)].
Proof.
  split.
  - intros H. specialize (H 1). 
    assert (Hh : holds_newest_result two_results 1).
    { split; [eexists; split; [reflexivity|discriminate]|].
      intros j m' Hj Hm'. apply lookup_lt_Some in Hm'. simpl in Hm'. lia. }
    specialize (H Hh). vm_compute in H. discriminate H.
  - vm_compute. reflexivity.
Qed.

(** C4, as the code has it: when the most recent ToolResult is the first
    tool result of the message that holds it (as in every tool-result
    message the loop appends, which holds a single block), that message goes
    out as shaped, nothing elided, whatever the judge answered. *)
Theorem C4_newest_result_never_elided (msgs : list Message) (saved : gset string)
    (i : nat) (m : Message) :
  holds_newest_result msgs i →
  msgs !! i = Some m →
  head (result_ids m) = last (result_ids m) →
  outbound msgs saved !! i = cachedApiMessages msgs !! i.
Proof.
  intros Hholds Hm Hfirst.
  pose proof (newest_of_holder msgs i m Hholds Hm) as Hnewest.
  destruct Hholds as [[m0 [Hm0 Hne]] _].
  rewrite Hm in Hm0. injection Hm0 as <-.
  unfold outbound, apiMessagesToSend.
  rewrite list_lookup_fmap, cached_lookup, Hm. simpl. f_equal.
  apply elide_message_newest; [done|]. congruence.
Qed.

Lemma C4_newest_result_witness :
  outbound one_result_each ∅ !! 2 = cachedApiMessages one_result_each !! 2.
Proof.
  apply (C4_newest_result_never_elided one_result_each ∅ 2
           {| role := user; content := Blocks [ToolResult "toolu_b" "new" false];
              toolInput := None |}).
  - split; [eexists; split; [reflexivity|discriminate]|].
    intros j m' Hj Hm'. apply lookup_lt_Some in Hm'. simpl in Hm'. lia.
  - reflexivity.
  - reflexivity.
Defined.

(** ** Reasoning about a turn *)

Lemma bind_ok {A B} (m : M A) (k : A → M B) (st st' : State) (b : B) :
  bind m k st = (Ok b, st') →
  ∃ a st1, m st = (Ok a, st1) ∧ k a st1 = (Ok b, st').
Proof.
  unfold bind. destruct (m st) as [[a|e] st1]; [eauto|discriminate].
Qed.

Lemma bind_throw {A B} (m : M A) (k : A → M B) (st st1 : State) (a : A) :
  m st = (Ok a, st1) → bind m k st = k a st1.
Proof. unfold bind. by intros ->. Qed.

Section Preservation.

Variable I : State → Prop.

Lemma preserves_ret {A} (a : A) : preserves I (ret a).
Proof. by intros st. Qed.

Lemma preserves_throw {A} (e : Thrown) : preserves I (@throw A e).
Proof. by intros st. Qed.

Lemma preserves_lift {A} (r : Res A) : preserves I (lift r).
Proof. by intros st. Qed.

Lemma preserves_bind {A B} (m : M A) (k : A → M B) :
  preserves I m → (∀ a, preserves I (k a)) → preserves I (bind m k).
Proof.
  intros Hm Hk st HI. unfold bind. specialize (Hm st HI).
  destruct (m st) as [[a|e] st1]; simpl in *; [by apply Hk | done].
Qed.

(** After [get] the continuation may use that the state it was handed
    satisfies the property. *)
Lemma preserves_get {B} (k : State → M B) :
  (∀ st0, I st0 → preserves I (k st0)) → preserves I (bind get k).
Proof. intros Hk st HI. unfold bind, get. by apply Hk. Qed.

End Preservation.

Section WorkingList.

Variable comp : Component.
Variable project : Project.
Variable conversationId : string.
Variable base : list Message.
Variable elide : bool.
Hypothesis elide_setting : elide = elideToolResults (settings project).

Local Abbreviation ok := (working_list_ok elide base).
Local Abbreviation fine := (carries_no_reply elide base).

Lemma emit_ok (e : Event) : fine e → preserves ok (emit e).
Proof.
  intros He st [Hcur Htr]. split; [done|]. simpl.
  apply Forall_app. split; [done|]. by constructor.
Qed.

Lemma set_saved_ok (saved : gset string) : preserves ok (set_saved saved).
Proof. by intros st [Hcur Htr]. Qed.

Lemma cancel_ok : preserves ok cancelCurrentCall.
Proof. by intros st [Hcur Htr]. Qed.

Lemma push_ok (m : Message) : is_result_message m → preserves ok (push m).
Proof.
  intros Hm st [(results & Hcur & Hres) Htr]. split; [|done]. simpl.
  exists (results ++ [m]). split.
  - by rewrite Hcur, app_assoc.
  - apply Forall_app. split; [done|]. by constructor.
Qed.

Lemma await_ok {A} (call : Await A) : preserves ok (await call).
Proof.
  unfold await. apply preserves_bind.
  - destruct (stop_pressed call); [apply cancel_ok | apply preserves_ret].
  - intros _. destruct (settles call); [apply preserves_ret | apply preserves_throw].
Qed.

Lemma update_working_list_ok :
  preserves ok
    (bind get (fun st => updateConversationMessages project conversationId
                           (currentMessages st))).
Proof.
  apply preserves_get. intros st0 [Hcur _]. apply emit_ok. by left.
Qed.

Lemma on_text_ok (deltas : list string) :
  ∀ text, preserves ok (on_text project conversationId text deltas).
Proof.
  induction deltas as [|delta rest IH]; intros text; simpl.
  - apply preserves_ret.
  - apply preserves_get. intros st0 [Hcur _]. apply preserves_bind.
    + apply emit_ok. right. by exists (currentMessages st0), (text ++ delta)%string.
    + intros _. apply IH.
Qed.

Lemma judge_phase_ok (it : Iteration) (cached : list ApiMessage) :
  preserves ok (judge_phase project it cached).
Proof.
  unfold judge_phase. destruct (elideToolResults _); [|apply preserves_ret].
  apply preserves_bind.
  - destruct (last cached) as [lastMessage|]; [|apply preserves_throw].
    destruct (api_content lastMessage) as [[|first more]|s];
      first [apply preserves_ret | apply preserves_throw].
  - intros [[| |]|]; try apply preserves_ret.
    apply preserves_bind; [by apply emit_ok|]. intros _.
    apply preserves_bind; [apply await_ok|].
    intros [|[text| |] more]; first [apply preserves_ret | apply preserves_throw | idtac].
    apply preserves_get. intros st0 _.
    apply preserves_bind; [apply preserves_lift|]. intros saved. apply set_saved_ok.
Qed.

Lemma title_phase_ok (it : Iteration) (cached : list ApiMessage) :
  preserves ok (title_phase comp project conversationId it cached).
Proof.
  unfold title_phase.
  destruct (activeConversation comp); [|apply preserves_ret].
  destruct cached as [|first [|second [|third more]]]; try apply preserves_ret.
  apply preserves_bind; [by apply emit_ok|]. intros _.
  apply preserves_bind; [apply await_ok|].
  intros [|[text| |] more]; first [apply preserves_ret | apply preserves_throw | idtac].
  destruct (suggestedTitle text); [apply preserves_ret | by apply emit_ok].
Qed.

Lemma toolResultMessage_is_result (id result : string) :
  is_result_message (toolResultMessage id result).
Proof. split; [done|]. by eexists _, _, _. Qed.

Lemma errorMessage_is_result (id : string) (e : Thrown) :
  is_result_message (errorMessage id e).
Proof. split; [done|]. by eexists _, _, _. Qed.

Lemma tool_failed_ok (id : string) (e : Thrown) :
  preserves ok (tool_failed project conversationId id e).
Proof.
  unfold tool_failed.
  apply preserves_bind; [apply push_ok, errorMessage_is_result|]. intros _.
  apply preserves_get. intros st0 [Hcur _].
  apply preserves_bind; [apply emit_ok; by left|]. intros _.
  apply preserves_get. intros st1 _. apply preserves_ret.
Qed.

Lemma tool_phase_ok (it : Iteration) (finalResponse : list MessageContent) :
  preserves ok (tool_phase comp project conversationId it finalResponse).
Proof.
  unfold tool_phase.
  destruct (List.find is_tool_use finalResponse) as [[text|id name input|i c e]|];
    try apply preserves_ret.
  destruct (serverWithTool comp name) as [server|]; [|apply tool_failed_ok].
  apply preserves_bind; [by apply emit_ok|]. intros _.
  apply preserves_bind.
  { destruct (stop_pressed _); [apply cancel_ok | apply preserves_ret]. }
  intros _. destruct (settles (tool_reply it)) as [result|e]; [|apply tool_failed_ok].
  apply preserves_bind; [apply push_ok, toolResultMessage_is_result|]. intros _.
  apply preserves_get. intros st0 [Hcur _].
  apply preserves_bind; [apply emit_ok; by left|]. intros _. apply preserves_ret.
Qed.

Lemma request_phase_ok (it : Iteration) :
  preserves ok (request_phase comp project conversationId it).
Proof.
  unfold request_phase. apply preserves_get. intros st0 [Hcur _].
  apply preserves_bind; [apply judge_phase_ok|]. intros _.
  apply preserves_get. intros st1 _.
  apply preserves_bind; [|intros finalResponse; apply preserves_ret].
  unfold stream_phase.
  apply preserves_bind.
  { apply emit_ok. exists (currentMessages st0), (savedToolResults st1).
    by rewrite elide_setting. }
  intros _. apply preserves_bind; [apply on_text_ok|]. intros _. apply await_ok.
Qed.

Lemma loop_body_ok (it : Iteration) :
  preserves ok (loop_body comp project conversationId it).
Proof.
  unfold loop_body. apply preserves_bind; [apply request_phase_ok|].
  intros sent. apply preserves_bind; [apply title_phase_ok|].
  intros _. apply tool_phase_ok.
Qed.

Lemma loop_ok (script : list Iteration) :
  preserves ok (loop comp project conversationId script).
Proof.
  induction script as [|it rest IH]; simpl; [apply preserves_ret|].
  apply preserves_bind; [apply loop_body_ok|].
  intros [|]; [apply IH | apply preserves_ret].
Qed.

End WorkingList.

Lemma settle_keeps (r : Res Outcome * State) :
  currentMessages (settle r).2 = currentMessages r.2
  ∧ trace (settle r).2 = trace r.2.
Proof. unfold settle. by destruct r as [[o|e] st]. Qed.

Lemma try_block_ok (comp : Component) (project : Project) (conversationId : string)
    (script : list Iteration) :
  working_list_ok (elideToolResults (settings project))
    (history comp ++ [userMessage comp])
    (try_block comp project conversationId script (initial comp)).2.
Proof.
  unfold try_block.
  erewrite bind_throw by reflexivity.
  apply preserves_get; [|split].
  - intros st0 [Hcur _]. apply preserves_bind; [apply emit_ok; by left|].
    intros _. by apply loop_ok.
  - exists []. split; [by rewrite app_nil_r | constructor].
  - constructor.
Qed.

(** C10: in a turn that gets past the guards, the working list is at every
    moment the history, the submitted user message and tool-result messages
    only.  Every store update carries that list, or that list followed by the
    text-only streamed message; every request is shaped from that list, so a
    request after a tool call lacks the assistant message that asked for
    it. *)
Theorem C10_working_list_never_holds_the_reply
    (comp : Component) (project : Project) (script : list Iteration) :
  activeProject comp = Some project →
  (handleSendMessage comp script).1 ≠ Skipped →
  working_list_ok (elideToolResults (settings project))
    (history comp ++ [userMessage comp])
    (handleSendMessage comp script).2.
Proof.
  intros Hp. unfold handleSendMessage. rewrite Hp.
  destruct (Js.trim (inputMessage comp)); [done|].
  destruct (activeConversationId comp) as [[|c0 id]|]; [done| |done].
  destruct (apiKey (settings project)) as [[|c key]|]; [done| |done].
  intros _.
  pose proof (try_block_ok comp project (String c0 id) script) as [Hcur Htr].
  destruct (settle_keeps (try_block comp project (String c0 id) script (initial comp)))
    as [Hc Ht].
  split; [by rewrite Hc | by rewrite Ht].
Qed.

Lemma C10_working_list_witness :
  working_list_ok
    (elideToolResults (settings (chat_project false [srv] [])))
    (history (new_chat false "find it") ++ [userMessage (new_chat false "find it")])
    (handleSendMessage (new_chat false "find it") one_tool_call).2.
Proof.
  apply (C10_working_list_never_holds_the_reply
           (new_chat false "find it") (chat_project false [srv] []) one_tool_call).
  - reflexivity.
  - vm_compute. discriminate.
Defined.

(** ** Termination of the loop *)

Section Passes.

Variable comp : Component.
Variable project : Project.
Variable conversationId : string.

Lemma await_resolved {A} (call : Await A) (st st' : State) (a : A) :
  await call st = (Ok a, st') → settles call = Resolved a.
Proof.
  unfold await. intros (_ & st1 & _ & H)%bind_ok.
  destruct (settles call); [by injection H as -> | discriminate].
Qed.

(** A pass gets past its request only with the [finalResponse] the stream
    resolved to, and with the payload shaped from the working list. *)
Lemma request_phase_sent (it : Iteration) (st st' : State)
    (sent : list ApiMessage * list MessageContent) :
  request_phase comp project conversationId it st = (Ok sent, st') →
  sent.1 = cachedApiMessages (currentMessages st)
  ∧ settles (stream_final it) = Resolved sent.2.
Proof.
  unfold request_phase. intros (st0 & ? & [= <- <-] & H)%bind_ok.
  apply bind_ok in H as (_ & st1 & _ & H).
  apply bind_ok in H as (st2 & ? & [= <- <-] & H).
  apply bind_ok in H as (final & st3 & Hstream & [= <- <-]).
  split; [done|]. simpl.
  unfold stream_phase in Hstream.
  apply bind_ok in Hstream as (_ & ? & _ & H).
  apply bind_ok in H as (_ & ? & _ & H).
  by apply await_resolved in H.
Qed.

Lemma tool_phase_continue (it : Iteration) (finalResponse : list MessageContent)
    (st st' : State) :
  tool_phase comp project conversationId it finalResponse st = (Ok Continue, st') →
  ∃ id name input, List.find is_tool_use finalResponse = Some (ToolUse id name input).
Proof.
  unfold tool_phase.
  destruct (List.find is_tool_use finalResponse) as [[text|id name input|i c e]|];
    try discriminate.
  eauto.
Qed.

(** The loop goes round again only after a response that asks for a tool. *)
Lemma loop_body_continue (it : Iteration) (st st' : State) :
  loop_body comp project conversationId it st = (Ok Continue, st') →
  asks_for_tool it.
Proof.
  unfold loop_body. intros (sent & st1 & Hreq & H)%bind_ok.
  apply bind_ok in H as (_ & st2 & _ & Htool).
  apply request_phase_sent in Hreq as [_ Hfinal].
  apply tool_phase_continue in Htool as (id & name & input & Hfind).
  by exists sent.2, id, name, input.
Qed.

(** Termination: whatever the earlier responses were, if the last scripted
    response does not ask for a tool, the loop has ended by then: it is at
    [break] or in the outer [catch], not waiting for a further response. *)
Lemma loop_settles (script : list Iteration) (it : Iteration) :
  ¬ asks_for_tool it →
  ∀ st, (loop comp project conversationId (script ++ [it]) st).1 ≠ Ok Pending.
Proof.
  intros Hlast. induction script as [|it0 rest IH]; intros st; simpl.
  - unfold bind. destruct (loop_body _ _ _ it st) as [[[|]|e] st1] eqn:Hbody;
      simpl; try discriminate.
    by apply loop_body_continue in Hbody.
  - unfold bind. destruct (loop_body _ _ _ it0 st) as [[[|]|e] st1] eqn:Hbody;
      simpl; try discriminate.
    apply IH.
Qed.

(** After a tool call that resolves the pass goes round again without
    looking at the cancel flag: the test that ends the loop body sits after
    the [continue]. *)
Lemma tool_phase_resolved_continues (it : Iteration)
    (finalResponse : list MessageContent) (id name input result : string)
    (server : McpServer) (st : State) :
  List.find is_tool_use finalResponse = Some (ToolUse id name input) →
  serverWithTool comp name = Some server →
  settles (tool_reply it) = Resolved result →
  (tool_phase comp project conversationId it finalResponse st).1 = Ok Continue.
Proof.
  intros Hfind Hserver Hresult. unfold tool_phase.
  rewrite Hfind, Hserver, Hresult. unfold bind; simpl.
  by destruct (stop_pressed (tool_reply it)).
Qed.

(** With no server advertising the tool, the dispatch appends one
    tool-result message flagged as an error, stores the list, and leaves the
    loop only if the cancel flag is set. *)
Lemma tool_phase_without_server (it : Iteration)
    (finalResponse : list MessageContent) (id name input : string) (st : State) :
  List.find is_tool_use finalResponse = Some (ToolUse id name input) →
  serverWithTool comp name = None →
  let appended :=
    currentMessages st ++
      [{| role := user;
          content := Blocks [ToolResult id ("Error: No server found for tool " +:+ name) true];
          toolInput := None |}] in
  let r := tool_phase comp project conversationId it finalResponse st in
  r.1 = Ok (if shouldCancel st then Break else Continue)
  ∧ currentMessages r.2 = appended
  ∧ trace r.2 = trace st ++ [UpdateMessages (project_id project) conversationId appended].
Proof.
  intros Hfind Hserver. unfold tool_phase. rewrite Hfind, Hserver. done.
Qed.

(** The title call is made only in a pass whose payload has exactly two
    messages. *)
Lemma title_phase_other_lengths (it : Iteration) (cached : list ApiMessage) (st : State) :
  length cached ≠ 2 →
  title_phase comp project conversationId it cached st = (Ok tt, st).
Proof.
  intros Hlen. unfold title_phase.
  destruct (activeConversation comp); [|done].
  by destruct cached as [|first [|second [|third more]]].
Qed.

End Passes.

(** ** The scenarios *)

(** C1: the provider asks for a tool once and then replies in plain text.
    The loop ends, but the stored conversation is the user message, the tool
    result and the final text: the assistant message with the tool_use block
    was never stored, so the result [t1] follows no tool_use. *)
Theorem C1_stored_result_follows_no_tool_use :
  let r := handleSendMessage (new_chat false "find it") one_tool_call in
  r.1 = Finished
  ∧ stored (trace r.2)
    = Some [text_message user "find it";
            {| role := user; content := Blocks [ToolResult "t1" "42 results" false];
               toolInput := None |};
            text_message assistant "Done"]
  ∧ results_follow_uses [] (default [] (stored (trace r.2))) = false.
Proof. vm_compute. done. Qed.

(** C3: a judge reply whose text ends in a newline has an empty last line;
    parsing it throws, the outer [catch] shows the message, and the request
    the judge was consulted for is never sent. *)
Theorem C3_line_without_separator_ends_the_turn :
  judge_text ("t1: Yes" +:+ LF) ∅ = Throw (TypeError "trim")
  ∧ let r := handleSendMessage (new_chat true "find it") judge_reply_with_newline in
    r.1 = Failed (TypeError "trim")
    ∧ error r.2 = Some "Cannot read properties of undefined (reading 'trim')"
    ∧ length (stream_requests (trace r.2)) = 1.
Proof. vm_compute. done. Qed.

(** C5: the stop button is pressed while [search] runs and the tool then
    resolves; the loop still sends the next request. *)
Theorem C5_request_sent_after_stop_during_tool :
  let r := handleSendMessage (new_chat false "find it")
             (stop_during_tool (Resolved "42 results")) in
  r.1 = Finished
  ∧ error r.2 = Some "Operation cancelled"
  ∧ requests_after_tool (trace r.2) = 1.
Proof. vm_compute. done. Qed.

(** When the tool call is rejected instead, the flag is looked at and no
    further request goes out. *)
Lemma stop_during_failing_tool :
  let r := handleSendMessage (new_chat false "find it")
             (stop_during_tool (Rejected (ErrorObj "timeout"))) in
  r.1 = Finished ∧ requests_after_tool (trace r.2) = 0.
Proof. vm_compute. done. Qed.

(** C6: with two connected servers offering [search], of which the project
    configures only ["proj"], the tool runs on ["other"]. *)
Theorem C6_dispatch_ignores_project_servers :
  let comp := two_servers "find it" in
  let r := handleSendMessage comp one_tool_call in
  configured_owner comp "search" = Some (search_server "proj")
  ∧ serverWithTool comp "search" = Some (search_server "other")
  ∧ executed_on (trace r.2) = ["other"].
Proof. vm_compute. done. Qed.

Lemma suggestedTitle_weather :
  suggestedTitle "Title: Weather Forecast" = "Weather Forecast"
  ∧ suggestedTitle (String (ascii_of_nat 34) "Title: Weather Forecast"
                    +:+ String (ascii_of_nat 34) EmptyString)
    = "Weather Forecast".
Proof. vm_compute. done. Qed.

(** C7: a brand-new conversation gets a plain reply; the store then holds two
    messages, yet no title call was made and the conversation keeps its
    name. *)
Theorem C7_no_title_call_for_new_conversation :
  let r := handleSendMessage (new_chat false "What is the weather?")
             [with_title (resolved [TextBlock "Title: Weather Forecast"])
                         (says "Sunny")] in
  r.1 = Finished
  ∧ length <$> stored (trace r.2) = Some 2
  ∧ title_calls (trace r.2) = 0
  ∧ renamed_to (trace r.2) = [].
Proof. vm_compute. done. Qed.

(** Where the title call does fire: in the second pass of a turn that began
    with a tool call, on the user message and the tool result. *)
Lemma title_call_after_tool_result :
  let r := handleSendMessage (new_chat false "find it")
             [asks_search "t1" (resolved "42 results");
              with_title (resolved [TextBlock "Title: Weather Forecast"])
                         (says "Done")] in
  title_calls (trace r.2) = 1 ∧ renamed_to (trace r.2) = ["Weather Forecast"].
Proof. vm_compute. done. Qed.

(** ** A failing title call *)

(** C8, counterexample: the title call of the second pass is rejected.  The
    turn fails with that error, its message is shown, and the tool the same
    response asked for ([t2]) is never run. *)
Lemma C8_rejected_title_call_fails_the_turn :
  let r := handleSendMessage (new_chat false "find it") title_call_rejected in
  ¬ unaffected r
  ∧ r.1 = Failed (ErrorObj "529 overloaded")
  ∧ error r.2 = Some "529 overloaded"
  ∧ length (executed_on (trace r.2)) = 1.
Proof.
  vm_compute. split; [|done]. intros [H _]. discriminate H.
Qed.

(** * Further properties *)

(** ** Shaping *)

Lemma sent_blocks_shape (len i : nat) (m : Message) :
  sent_blocks (shape_message len i m) = as_blocks (content m).
Proof.
  unfold sent_blocks, shape_message.
  destruct (Nat.ltb _ _), (content m) as [l|s]; simpl; try done.
  - rewrite <- list_fmap_compose. apply list_fmap_id.
  - rewrite blk_mark_last, <- list_fmap_compose. apply list_fmap_id.
Qed.

Lemma cached_roles (msgs : list Message) :
  api_role <$> cachedApiMessages msgs = role <$> msgs.
Proof.
  apply list_eq. intros i. rewrite !list_lookup_fmap, cached_lookup.
  destruct (msgs !! i) as [m|]; simpl; [|done]. f_equal.
  unfold shape_message. by destruct (Nat.ltb _ _).
Qed.

(** The shaped payload has the roles, the tool inputs and, read as blocks,
    the content of the stored messages, one for one: shaping only adds cache
    markers and turns plain strings of the window into text blocks. *)
Theorem shaping_keeps_messages (msgs : list Message) :
  api_role <$> cachedApiMessages msgs = role <$> msgs
  ∧ api_toolInput <$> cachedApiMessages msgs = toolInput <$> msgs
  ∧ sent_blocks <$> cachedApiMessages msgs = (fun m => as_blocks (content m)) <$> msgs.
Proof.
  repeat split; apply list_eq; intros i;
    rewrite !list_lookup_fmap, cached_lookup;
    destruct (msgs !! i) as [m|]; simpl; try done; f_equal.
  - unfold shape_message. by destruct (Nat.ltb _ _).
  - unfold shape_message. by destruct (Nat.ltb _ _).
  - apply sent_blocks_shape.
Qed.

Lemma marked_count_cons (m : ApiMessage) (payload : list ApiMessage) :
  marked_count (m :: payload) = marks_of m + marked_count payload.
Proof.
  unfold marked_count, marks_of. simpl.
  by rewrite List.filter_app, length_app.
Qed.

Lemma filter_marks_bare (l : list MessageContent) :
  List.filter cache_control (bare <$> l) = [].
Proof. induction l as [|c l IH]; [done|]. rewrite fmap_cons. simpl. exact IH. Qed.

Lemma mark_last_snoc (l : list ApiBlock) (x : ApiBlock) :
  mark_last (l ++ [x]) = l ++ [ephemeral x].
Proof.
  apply list_eq. intros j. rewrite mark_last_lookup, length_app. simpl.
  destruct (decide (j < length l)) as [Hlt|Hge].
  - rewrite !lookup_app_l by done.
    destruct (l !! j) eqn:Hj; simpl; [|done].
    destruct (Nat.eqb_spec (j + 1) (length l + 1)); [lia|done].
  - rewrite !lookup_app_r by lia.
    destruct (j - length l) as [|k] eqn:Hk; simpl; [|done].
    destruct (Nat.eqb_spec (j + 1) (length l + 1)); [done|lia].
Qed.

Lemma mark_last_at_most_one (al : list ApiBlock) :
  List.filter cache_control al = [] →
  length (List.filter cache_control (mark_last al)) ≤ 1.
Proof.
  destruct al as [|x al _] using rev_ind; intros Hnone; [simpl; lia|].
  rewrite mark_last_snoc, List.filter_app, length_app.
  rewrite List.filter_app in Hnone. apply app_eq_nil in Hnone as [-> _].
  simpl. lia.
Qed.

Lemma marks_of_shape (len i : nat) (m : Message) :
  marks_of (shape_message len i m) ≤ if Nat.ltb (i + 3) len then 0 else 1.
Proof.
  unfold marks_of, shape_message.
  destruct (Nat.ltb _ _), (content m) as [l|s]; simpl; try lia.
  - by rewrite filter_marks_bare.
  - apply mark_last_at_most_one, filter_marks_bare.
Qed.

Lemma marked_count_window (len : nat) (l : list Message) :
  ∀ off, off + length l = len →
    marked_count (imap (fun j => shape_message len (off + j)) l) ≤ Nat.min 3 (length l).
Proof.
  induction l as [|m l IH]; intros off Hlen; [done|].
  rewrite imap_cons, marked_count_cons. simpl in Hlen.
  replace (off + 0) with off by lia.
  pose proof (marks_of_shape len off m) as Hm.
  rewrite (imap_ext _ (fun j => shape_message len (S off + j))); last first.
  { intros j x _. simpl. f_equal. lia. }
  specialize (IH (S off) ltac:(lia)).
  destruct (Nat.ltb_spec (off + 3) len); simpl length; lia.
Qed.

(** Whatever the length of the history, at most three blocks of the shaped
    payload carry a cache marker. *)
Theorem shaping_marks_at_most_three (msgs : list Message) :
  marked_count (cachedApiMessages msgs) ≤ 3.
Proof.
  unfold cachedApiMessages.
  pose proof (marked_count_window (length msgs) msgs 0 eq_refl) as H.
  eapply Nat.le_trans; [exact H | lia].
Qed.

(** ** Elision *)

Lemma elide_message_role (newest : option string) (saved : gset string)
    (msg : ApiMessage) :
  api_role (elide_message newest saved msg) = api_role msg.
Proof.
  unfold elide_message. destruct (api_content msg) as [l|s]; [|done].
  destruct (List.find _ l) as [c|]; [|done].
  destruct (tool_result_id (blk c)); [|done].
  by destruct (_ || _).
Qed.

(** Elision changes neither the number of messages nor their roles. *)
Theorem elision_keeps_roles (msgs : list Message) (saved : gset string) :
  api_role <$> outbound msgs saved = role <$> msgs.
Proof.
  unfold outbound, apiMessagesToSend.
  rewrite <- (cached_roles msgs).
  rewrite <- list_fmap_compose. apply list_fmap_ext.
  intros i m _. apply elide_message_role.
Qed.

Lemma elide_message_kept (len i : nat) (m : Message) (saved : gset string)
    (newest : option string) :
  (∀ id, head (result_ids m) = Some id → id ∈ saved) →
  elide_message newest saved (shape_message len i m) = shape_message len i m.
Proof.
  intros Hsaved. unfold elide_message.
  destruct (api_content (shape_message len i m)) as [al|s] eqn:Hal; [|done].
  destruct (List.find _ al) as [c|] eqn:Hc; [|done].
  destruct (find_tool_result_is_result al c Hc) as [id Hid]. rewrite Hid.
  assert (Hhead : head (result_ids m) = Some id).
  { pose proof (find_tool_result_head al) as Hfind. rewrite Hc in Hfind.
    simpl in Hfind. rewrite Hid in Hfind.
    pose proof (sent_blocks_shape len i m) as Hsent.
    unfold sent_blocks in Hsent. rewrite Hal in Hsent.
    unfold result_ids. rewrite Hfind, Hsent.
    by destruct (content m). }
  rewrite (bool_decide_eq_true_2 (id ∈ saved)) by auto.
  by rewrite orb_true_r.
Qed.

(** A message with no tool result, or whose first tool result the judge
    kept, goes out as shaped. *)
Theorem elision_spares_saved_results (msgs : list Message) (saved : gset string)
    (i : nat) (m : Message) :
  msgs !! i = Some m →
  (∀ id, head (result_ids m) = Some id → id ∈ saved) →
  outbound msgs saved !! i = cachedApiMessages msgs !! i.
Proof.
  intros Hm Hsaved. unfold outbound, apiMessagesToSend.
  rewrite list_lookup_fmap, cached_lookup, Hm. simpl. f_equal.
  by apply elide_message_kept.
Qed.

Lemma elision_spares_saved_witness :
  outbound old_and_new_results {[ "toolu_a" ]} !! 1
  = cachedApiMessages old_and_new_results !! 1.
Proof.
  apply (elision_spares_saved_results old_and_new_results {[ "toolu_a" ]} 1
           {| role := user; content := Blocks [ToolResult "toolu_a" "old" false];
              toolInput := None |}).
  - reflexivity.
  - intros id [= <-]. set_solver.
Defined.

Lemma blk_with_content (s : string) (b : ApiBlock) :
  blk (with_content s b) = match blk b with
                           | ToolResult id _ e => ToolResult id s e
                           | other => other
                           end.
Proof. unfold with_content. by destruct (blk b). Qed.

(** A message whose first tool result is neither the newest nor saved goes
    out as one block only: its first block, with the content replaced by
    ['elided'] if that block is the tool result.  The id and the error flag
    of an elided tool result are kept. *)
Theorem elision_collapses_to_first_block (msgs : list Message) (saved : gset string)
    (i : nat) (m : Message) (first : MessageContent) (more : list MessageContent)
    (id : string) :
  msgs !! i = Some m →
  content m = Blocks (first :: more) →
  head (result_ids m) = Some id →
  id ∉ saved →
  newestToolResultId msgs ≠ Some id →
  sent_blocks <$> outbound msgs saved !! i = Some [elided_block first].
Proof.
  intros Hm Hc Hhead Hsaved Hnewest. unfold outbound, apiMessagesToSend.
  rewrite !list_lookup_fmap, cached_lookup, Hm. simpl. f_equal.
  destruct (shape_message_blocks (length msgs) i m _ Hc) as (al & Hal & Hblk).
  unfold elide_message. rewrite Hal.
  pose proof (find_tool_result_head al) as Hfind.
  rewrite Hblk in Hfind. unfold result_ids in Hhead. rewrite Hc in Hhead.
  cbn [block_list] in Hhead. rewrite Hhead in Hfind.
  destruct (List.find _ al) as [c|] eqn:Hfound; [|discriminate].
  simpl in Hfind. rewrite Hfind.
  rewrite bool_decide_eq_false_2 by congruence.
  rewrite bool_decide_eq_false_2 by done. simpl.
  destruct al as [|b0 al']; [discriminate|].
  injection Hblk as Hb0 _.
  unfold sent_blocks. simpl. rewrite blk_with_content, Hb0.
  by destruct first.
Qed.

Lemma elision_collapses_witness :
  sent_blocks <$> outbound old_and_new_results ∅ !! 1
  = Some [elided_block (ToolResult "toolu_a" "old" false)].
Proof.
  apply (elision_collapses_to_first_block old_and_new_results ∅ 1
           {| role := user; content := Blocks [ToolResult "toolu_a" "old" false];
              toolInput := None |}
           (ToolResult "toolu_a" "old" false) [] "toolu_a").
  - reflexivity.
  - reflexivity.
  - reflexivity.
  - set_solver.
  - vm_compute. discriminate.
Defined.

(** ** Verdict lines as the prompt asks for them *)

Lemma prefix_empty (s : string) : String.prefix EmptyString s = true.
Proof. by destruct s. Qed.

Lemma split_no_separator (v : string) :
  occurs ": " v = false → Js.split_from ": " 0 v = [v].
Proof.
  induction v as [|c v IH]; [done|].
  intros Hocc. cbn [occurs] in Hocc. apply orb_false_elim in Hocc as [Hpre Hrest].
  cbn [Js.split_from]. rewrite Hpre, (IH Hrest). done.
Qed.

Lemma split_key_value (key v : string) :
  occurs ": " key = false → occurs ": " v = false →
  Js.split ": " (key +:+ ": " +:+ v) = [key; v].
Proof.
  intros Hkey Hv. unfold Js.split.
  induction key as [|c key IH].
  - destruct v as [|d v]; [reflexivity|].
    change (Js.split_from ": " 0 (EmptyString +:+ ": " +:+ String d v))
      with (EmptyString :: Js.split_from ": " 0 (String d v)).
    f_equal. by apply split_no_separator.
  - cbn [occurs] in Hkey. apply orb_false_elim in Hkey as [Hpre Hrest].
    change (String c key +:+ ": " +:+ v) with (String c (key +:+ ": " +:+ v)).
    cbn [Js.split_from].
    assert (Hpre' : String.prefix ": " (String c (key +:+ ": " +:+ v)) = false).
    { destruct key as [|d key]; cbn [String.prefix String.append] in *.
      - destruct (ascii_dec ":" c); [reflexivity|done].
      - destruct (ascii_dec ":" c); [|done].
        change (String d key +:+ ": " +:+ v) with (String d (key +:+ ": " +:+ v)).
        cbn [String.prefix]. destruct (ascii_dec " " d); [|done].
        by rewrite prefix_empty in Hpre. }
    rewrite Hpre', (IH Hrest). done.
Qed.

(** A line written the way the judging prompt asks, the id, then [': '],
    then the answer, with no other [': '] in it, is read back as that id and
    that answer: Yes adds the id, No removes it, anything else leaves the set
    alone; white space around the answer (a carriage return before the line
    feed, say) does not matter. *)
Theorem judge_line_reads_prompt_format (saved : gset string) (id verdict : string) :
  occurs ": " id = false → occurs ": " verdict = false →
  judge_line saved (id +:+ ": " +:+ verdict)
  = Ok (if bool_decide (Js.trim verdict = "Yes") then {[id]} ∪ saved
        else if bool_decide (Js.trim verdict = "No") then saved ∖ {[id]}
        else saved).
Proof.
  intros Hid Hv. unfold judge_line. rewrite (split_key_value _ _ Hid Hv).
  by repeat case_bool_decide.
Qed.

Lemma judge_line_prompt_witness :
  Js.trim (" Yes" +:+ NBSP) = "Yes"
  ∧ judge_line ∅ ("toolu_014huykAonadokihkrboFfqn" +:+ ": " +:+ (" Yes" +:+ NBSP))
    = Ok (if bool_decide (Js.trim (" Yes" +:+ NBSP) = "Yes")
          then {[ "toolu_014huykAonadokihkrboFfqn" ]} ∪ ∅
          else if bool_decide (Js.trim (" Yes" +:+ NBSP) = "No")
               then ∅ ∖ {[ "toolu_014huykAonadokihkrboFfqn" ]}
               else ∅).
Proof.
  split; [reflexivity|].
  apply (judge_line_reads_prompt_format ∅ "toolu_014huykAonadokihkrboFfqn"
           (" Yes" +:+ NBSP)).
  - reflexivity.
  - reflexivity.
Defined.

Lemma split_ends_with_newline (text : string) :
  ∃ piece pieces, Js.split_from LF 0 (text +:+ LF) = piece :: pieces ++ [EmptyString].
Proof.
  induction text as [|c text (piece & pieces & IH)].
  - by exists EmptyString, [].
  - change (String c text +:+ LF) with (String c (text +:+ LF)).
    cbn [Js.split_from]. change (String.length LF - 1) with 0. rewrite IH.
    destruct (String.prefix LF (String c (text +:+ LF))).
    + by exists EmptyString, (piece :: pieces).
    + by exists (String c piece), pieces.
Qed.

Lemma judge_lines_throw_is_type_error (lines : list string) (saved : gset string)
    (e : Thrown) :
  judge_lines lines saved = Throw e → e = TypeError "trim".
Proof.
  revert saved. induction lines as [|line rest IH]; intros saved; simpl; [done|].
  destruct (judge_line saved line) as [saved1|e1] eqn:Hline; [apply IH|].
  intros [= <-]. unfold judge_line in Hline.
  destruct (Js.split ": " line) as [|key [|value more]];
    repeat case_bool_decide; congruence.
Qed.

Lemma judge_lines_empty_last (lines : list string) :
  ∀ saved, judge_lines (lines ++ [EmptyString]) saved = Throw (TypeError "trim").
Proof.
  induction lines as [|line rest IH]; intros saved; simpl; [done|].
  destruct (judge_line saved line) as [saved1|e] eqn:Hline; [apply IH|].
  f_equal. apply (judge_lines_throw_is_type_error [line] saved). simpl.
  by rewrite Hline.
Qed.

(** Whatever the verdicts, a judge reply whose text ends in a line feed
    makes the parsing throw: its last line is empty and has no separator. *)
Theorem judge_text_ending_in_newline_throws (text : string) (saved : gset string) :
  judge_text (text +:+ LF) saved = Throw (TypeError "trim").
Proof.
  unfold judge_text, Js.split. simpl.
  destruct (split_ends_with_newline text) as (piece & pieces & ->).
  apply (judge_lines_empty_last (piece :: pieces)).
Qed.

(** ** The tool list offered to the provider *)

Lemma first_of_each_name_elem (tools : list McpTool) :
  ∀ (seen : gset string) (t : McpTool),
    t ∈ first_of_each_name tools seen → t ∈ tools ∧ tool_name t ∉ seen.
Proof.
  induction tools as [|x rest IH]; intros seen t; simpl.
  - by intros ?%elem_of_nil.
  - case_bool_decide as Hseen.
    + intros [Hin Hnot]%IH. split; [by right | done].
    + intros [->|Hin]%elem_of_cons.
      * split; [by left | done].
      * apply IH in Hin as [Hin Hnot]. split; [by right | set_solver].
Qed.

Lemma first_of_each_name_NoDup (tools : list McpTool) :
  ∀ seen : gset string, NoDup (tool_name <$> first_of_each_name tools seen).
Proof.
  induction tools as [|x rest IH]; intros seen; simpl; [constructor|].
  case_bool_decide as Hseen; [apply IH|].
  rewrite fmap_cons. constructor; [|apply IH].
  intros (t & Hname & Hin)%list_elem_of_fmap.
  apply first_of_each_name_elem in Hin as [_ Hnot]. set_solver.
Qed.

Lemma first_of_each_name_complete (tools : list McpTool) :
  ∀ (seen : gset string) (t : McpTool),
    t ∈ tools → tool_name t ∉ seen →
    tool_name t ∈ tool_name <$> first_of_each_name tools seen.
Proof.
  induction tools as [|x rest IH]; intros seen t; simpl.
  - by intros ?%elem_of_nil.
  - intros [->|Hin]%elem_of_cons Hnot.
    + rewrite bool_decide_eq_false_2 by done. rewrite fmap_cons. by left.
    + case_bool_decide as Hseen; [by apply IH|].
      rewrite fmap_cons. destruct (decide (tool_name t = tool_name x)) as [->|Hne].
      * by left.
      * right. apply IH; [done | set_solver].
Qed.

(** The tool kept for a name is the first one of that name. *)
Lemma first_of_each_name_first (tools : list McpTool) :
  ∀ (seen : gset string) (t : McpTool),
    t ∈ first_of_each_name tools seen →
    List.find (fun x => bool_decide (tool_name x = tool_name t)) tools = Some t.
Proof.
  induction tools as [|x rest IH]; intros seen t; simpl.
  - by intros ?%elem_of_nil.
  - case_bool_decide as Hseen.
    + intros Hin. pose proof (first_of_each_name_elem _ _ _ Hin) as [_ Hnot].
      rewrite bool_decide_eq_false_2 by (intros Heq; by rewrite Heq in Hseen).
      by apply (IH seen).
    + intros [->|Hin]%elem_of_cons.
      * by rewrite bool_decide_eq_true_2.
      * pose proof (first_of_each_name_elem _ _ _ Hin) as [_ Hnot].
        rewrite bool_decide_eq_false_2 by set_solver.
        by apply (IH _ _ Hin).
Qed.

(** [getUniqueTools] spelled out for a project that configures servers. *)
Lemma getUniqueTools_unfold (comp : Component) (project : Project) (should_cache : bool) :
  activeProject comp = Some project →
  getUniqueTools comp should_cache =
  imap (fun index t =>
          {| api_tool_name := tool_name t;
             api_tool_description := tool_description t;
             api_tool_input_schema := input_schema t;
             api_tool_cache_control :=
               should_cache
               && Nat.eqb (index + 1)
                    (length (first_of_each_name (offered comp project) ∅)) |})
       (first_of_each_name (offered comp project) ∅).
Proof.
  intros Hp. unfold getUniqueTools, offered. rewrite Hp.
  destruct (mcpServers (settings project)) as [|c configured] eqn:Hconf; [|done].
  simpl. induction (servers comp) as [|s rest IH]; [done|]. simpl. exact IH.
Qed.

Lemma getUniqueTools_names (comp : Component) (project : Project) (should_cache : bool) :
  activeProject comp = Some project →
  api_tool_name <$> getUniqueTools comp should_cache
  = tool_name <$> first_of_each_name (offered comp project) ∅.
Proof.
  intros Hp. rewrite (getUniqueTools_unfold comp project should_cache Hp).
  rewrite fmap_imap. apply imap_const.
Qed.

(** No two tools of the list sent to the provider have the same name. *)
Theorem getUniqueTools_names_distinct (comp : Component) (should_cache : bool) :
  NoDup (api_tool_name <$> getUniqueTools comp should_cache).
Proof.
  destruct (activeProject comp) as [project|] eqn:Hp.
  - rewrite (getUniqueTools_names comp project should_cache Hp).
    apply first_of_each_name_NoDup.
  - unfold getUniqueTools. rewrite Hp. constructor.
Qed.

(** A name is in the tool list exactly when a server that is both connected
    and configured for the active project advertises a tool of that name. *)
Theorem getUniqueTools_names_are_the_offered (comp : Component) (project : Project)
    (should_cache : bool) (name : string) :
  activeProject comp = Some project →
  name ∈ api_tool_name <$> getUniqueTools comp should_cache
  ↔ ∃ server tools t,
      server ∈ servers comp
      ∧ (∃ configured, configured ∈ mcpServers (settings project)
                       ∧ server_id configured = server_id server)
      ∧ server_tools server = Some tools
      ∧ t ∈ tools ∧ tool_name t = name.
Proof.
  intros Hp. rewrite (getUniqueTools_names comp project should_cache Hp).
  assert (Hoffered : ∀ t, t ∈ offered comp project ↔
            ∃ server tools,
              server ∈ servers comp
              ∧ (∃ configured, configured ∈ mcpServers (settings project)
                               ∧ server_id configured = server_id server)
              ∧ server_tools server = Some tools ∧ t ∈ tools).
  { intros t. unfold offered. rewrite list_elem_of_bind. split.
    - intros (server & Ht & Hs). apply list_elem_of_In, filter_In in Hs as [Hs Hconf].
      apply existsb_exists in Hconf as (configured & Hc & Heq).
      apply bool_decide_eq_true in Heq.
      destruct (server_tools server) as [tools|] eqn:Htools; [|by apply elem_of_nil in Ht].
      exists server, tools. repeat split; try done.
      + by apply list_elem_of_In.
      + exists configured. split; [by apply list_elem_of_In | done].
    - intros (server & tools & Hs & (configured & Hc & Heq) & Htools & Ht).
      exists server. split; [by rewrite Htools|].
      apply list_elem_of_In, filter_In. split; [by apply list_elem_of_In|].
      apply existsb_exists. exists configured.
      split; [by apply list_elem_of_In | by apply bool_decide_eq_true]. }
  split.
  - intros (t & -> & Hin)%list_elem_of_fmap.
    apply first_of_each_name_elem in Hin as [Hin _].
    apply Hoffered in Hin as (server & tools & Hs & Hc & Htools & Ht).
    by exists server, tools, t.
  - intros (server & tools & t & Hs & Hc & Htools & Ht & <-).
    apply first_of_each_name_complete; [|set_solver].
    apply Hoffered. by exists server, tools.
Qed.

Lemma getUniqueTools_names_witness :
  "search" ∈ api_tool_name <$> getUniqueTools (two_servers "find it") true
  ↔ ∃ server tools t,
      server ∈ servers (two_servers "find it")
      ∧ (∃ configured,
            configured ∈ mcpServers (settings (chat_project false [search_server "proj"] []))
            ∧ server_id configured = server_id server)
      ∧ server_tools server = Some tools
      ∧ t ∈ tools ∧ tool_name t = "search".
Proof.
  apply (getUniqueTools_names_are_the_offered (two_servers "find it")
           (chat_project false [search_server "proj"] []) true "search").
  reflexivity.
Defined.

(** Each listed tool has the description and the schema of the first tool of
    its name among those offered: the first occurrence wins. *)
Theorem getUniqueTools_first_occurrence_wins (comp : Component) (project : Project)
    (should_cache : bool) (tool : ApiTool) :
  activeProject comp = Some project →
  tool ∈ getUniqueTools comp should_cache →
  ∃ t, List.find (fun x => bool_decide (tool_name x = api_tool_name tool))
                 (offered comp project) = Some t
       ∧ api_tool_description tool = tool_description t
       ∧ api_tool_input_schema tool = input_schema t.
Proof.
  intros Hp. rewrite (getUniqueTools_unfold comp project should_cache Hp).
  intros (index & t & -> & Ht)%elem_of_lookup_imap. simpl.
  exists t. split; [|done].
  apply (first_of_each_name_first _ ∅). apply list_elem_of_lookup. eauto.
Qed.

Lemma getUniqueTools_first_occurrence_witness :
  offered same_name_tools (chat_project false [files; web] [])
  = [search; fetch; search_files; read_file]
  ∧ ∃ t, List.find (fun x => bool_decide (tool_name x = "search"))
                   (offered same_name_tools (chat_project false [files; web] []))
         = Some t
         ∧ "Search the web" = tool_description t
         ∧ "{}" = input_schema t.
Proof.
  split; [reflexivity|].
  apply (getUniqueTools_first_occurrence_wins same_name_tools
           (chat_project false [files; web] []) false
           {| api_tool_name := "search"; api_tool_description := "Search the web";
              api_tool_input_schema := "{}"; api_tool_cache_control := false |}).
  - reflexivity.
  - vm_compute. by left.
Defined.

(** [getUniqueTools(false)] is [getUniqueTools(true)] with the cache
    markers taken off: the same tools in the same order, none marked.  In
    [getUniqueTools(true)] the last tool of the list is marked and no
    other. *)
Theorem getUniqueTools_marks_last_tool (comp : Component) :
  getUniqueTools comp false = unmarked <$> getUniqueTools comp true
  ∧ ∀ i tool,
      getUniqueTools comp true !! i = Some tool →
      api_tool_cache_control tool
      = bool_decide (i + 1 = length (getUniqueTools comp true)).
Proof.
  destruct (activeProject comp) as [project|] eqn:Hp; last first.
  { unfold getUniqueTools. rewrite Hp. split; [done|]. intros i tool.
    by rewrite lookup_nil. }
  rewrite !(getUniqueTools_unfold comp project _ Hp), length_imap. split.
  - rewrite fmap_imap. by apply imap_ext.
  - intros i tool. rewrite list_lookup_imap.
    destruct (first_of_each_name (offered comp project) ∅ !! i) as [t|]; [|done].
    simpl. intros [= <-]. simpl.
    destruct (Nat.eqb_spec (i + 1) (length (first_of_each_name (offered comp project) ∅)));
      case_bool_decide; simpl in *; first [done | lia].
Qed.

Lemma getUniqueTools_marks_last_witness :
  api_tool_cache_control <$> getUniqueTools same_name_tools true = [false; false; true]
  ∧ getUniqueTools same_name_tools false
    = unmarked <$> getUniqueTools same_name_tools true
  ∧ ∀ i tool,
      getUniqueTools same_name_tools true !! i = Some tool →
      api_tool_cache_control tool
      = bool_decide (i + 1 = length (getUniqueTools same_name_tools true)).
Proof.
  split; [reflexivity|].
  apply (getUniqueTools_marks_last_tool same_name_tools).
Defined.

(** ** The sidebar *)

(** Toggling a project changes the expansion of that project only, and
    toggling it twice gives the set back. *)
Theorem toggle_twice_restores (projectId : string) (prev : gset string) :
  Sidebar.toggleProjectExpanded projectId
    (Sidebar.toggleProjectExpanded projectId prev) = prev
  ∧ (projectId ∈ Sidebar.toggleProjectExpanded projectId prev ↔ projectId ∉ prev)
  ∧ ∀ other, other ≠ projectId →
      (other ∈ Sidebar.toggleProjectExpanded projectId prev ↔ other ∈ prev).
Proof.
  unfold Sidebar.toggleProjectExpanded.
  destruct (decide (projectId ∈ prev)) as [Hin|Hout].
  - rewrite (bool_decide_eq_true_2 (projectId ∈ prev)) by done.
    rewrite bool_decide_eq_false_2 by set_solver.
    repeat split; try set_solver.
    apply set_eq. intros x. destruct (decide (x = projectId)); set_solver.
  - rewrite (bool_decide_eq_false_2 (projectId ∈ prev)) by done.
    rewrite bool_decide_eq_true_2 by set_solver.
    repeat split; set_solver.
Qed.

Lemma find_project_id (projects : list Project) (projectId : string) (project : Project) :
  List.find (fun p => bool_decide (project_id p = projectId)) projects = Some project →
  project ∈ projects ∧ project_id project = projectId.
Proof.
  intros [Hin Hid]%find_some. split; [by apply list_elem_of_In|].
  by apply bool_decide_eq_true in Hid.
Qed.

(** Selecting a project never activates a conversation from elsewhere: the
    conversation it activates belongs to the project of that id; and for an
    unknown project id nothing is done at all, not even the project
    switch. *)
Theorem handleProjectSelect_stays_in_project (projects : list Project)
    (lastActive : gmap string string) (projectId : string) (shouldCreateChat : bool) :
  match List.find (fun p => bool_decide (project_id p = projectId)) projects with
  | None => Sidebar.handleProjectSelect projects lastActive projectId shouldCreateChat = []
  | Some project =>
      last (Sidebar.handleProjectSelect projects lastActive projectId shouldCreateChat)
      = Some (Sidebar.SetActiveProject projectId)
      ∧ ∀ conversationId,
          Sidebar.SetActiveConversation conversationId
            ∈ Sidebar.handleProjectSelect projects lastActive projectId shouldCreateChat →
          conversationId ∈ conversation_id <$> conversations project
  end.
Proof.
  unfold Sidebar.handleProjectSelect.
  destruct (List.find _ projects) as [project|]; [|done].
  split; [by rewrite last_snoc|].
  intros conversationId Hin. apply elem_of_app in Hin as [Hin|Hin]; last first.
  { apply list_elem_of_singleton in Hin. discriminate Hin. }
  destruct (conversations project) as [|newest others] eqn:Hconvs.
  { destruct shouldCreateChat; [|by apply elem_of_nil in Hin].
    apply list_elem_of_singleton in Hin. discriminate Hin. }
  assert (Hnewest : conversation_id newest
                    ∈ conversation_id <$> newest :: others) by (rewrite fmap_cons; by left).
  destruct (lastActive !! projectId) as [[|c last]|];
    try (apply list_elem_of_singleton in Hin; injection Hin as ->; exact Hnewest).
  destruct (existsb _ (newest :: others)) eqn:Hex;
    apply list_elem_of_singleton in Hin; injection Hin as ->; [|exact Hnewest].
  apply existsb_exists in Hex as (conv & Hconv & Heq).
  apply bool_decide_eq_true in Heq. rewrite <- Heq.
  apply list_elem_of_fmap. exists conv. split; [done | by apply list_elem_of_In].
Qed.



(** *** Trimming *)

Lemma append_cons (c : ascii) (s w : string) :
  String c s +:+ w = String c (s +:+ w).
Proof. reflexivity. Qed.

Lemma space_width_bound (s : string) : Js.space_width s ≤ String.length s.
Proof.
  destruct s as [|a [|b [|c s]]]; cbn [Js.space_width String.length];
    repeat match goal with |- context [if ?b then _ else _] => destruct b end; lia.
Qed.

(** The white-space character a string starts with is still there after
    something is appended. *)
Lemma space_width_app (s w : string) (k : nat) :
  Js.space_width s = S k → Js.space_width (s +:+ w) = S k.
Proof.
  destruct s as [|a [|b [|c s]]]; rewrite ?append_cons;
    cbn [Js.space_width]; try discriminate;
    destruct (Js.space1 _); try done;
    try (change (EmptyString +:+ w) with w; destruct w as [|x w]);
    try discriminate;
    destruct (Js.space2 _ _); try done;
    try (change (EmptyString +:+ w) with w; destruct w as [|y w]);
    try discriminate;
    destruct (Js.space3 _ _ _); done.
Qed.

Lemma trimStart_from_cons (skip : nat) (c : ascii) (rest : string) :
  Js.trimStart_from skip (String c rest)
  = match skip with
    | S k => Js.trimStart_from k rest
    | O => match Js.space_width (String c rest) with
           | O => String c rest
           | S k => Js.trimStart_from k rest
           end
    end.
Proof. by destruct skip. Qed.

(** What [trimStart] leaves starts with no white space. *)
Lemma trimStart_from_width (s : string) :
  ∀ skip, Js.space_width (Js.trimStart_from skip s) = 0.
Proof.
  induction s as [|c s IH]; intros skip; [by destruct skip|].
  rewrite trimStart_from_cons. destruct skip as [|k]; [|apply IH].
  destruct (Js.space_width (String c s)) eqn:Hw; [exact Hw | apply IH].
Qed.

Lemma trimStart_fixed (s : string) : Js.space_width s = 0 → Js.trimStart s = s.
Proof.
  unfold Js.trimStart. destruct s as [|c s]; [done|].
  rewrite trimStart_from_cons. by intros ->.
Qed.

Lemma trimStart_from_app (u w : string) :
  ∀ skip, skip ≤ String.length u →
          Js.trimStart_from skip u = EmptyString →
          Js.trimStart_from skip (u +:+ w) = Js.trimStart w.
Proof.
  induction u as [|c u IH]; intros skip Hskip.
  - simpl in Hskip. by replace skip with 0 by lia.
  - rewrite append_cons, !trimStart_from_cons. destruct skip as [|k].
    + destruct (Js.space_width (String c u)) as [|k] eqn:Hw; [discriminate|].
      rewrite <- append_cons, (space_width_app _ w k Hw).
      pose proof (space_width_bound (String c u)) as Hb. rewrite Hw in Hb.
      simpl in Hb. apply IH. lia.
    + simpl in Hskip. apply IH. lia.
Qed.

Lemma blank_app (u w : string) :
  Js.blank u = true → Js.blank w = true → Js.blank (u +:+ w) = true.
Proof.
  unfold Js.blank, Js.trimStart. intros Hu Hw.
  rewrite (trimStart_from_app u w 0); [done | lia |].
  by destruct (Js.trimStart_from 0 u).
Qed.

Lemma trimEnd_cons (c : ascii) (s : string) :
  Js.trimEnd (String c s)
  = if Js.blank (String c s) then EmptyString else String c (Js.trimEnd s).
Proof. reflexivity. Qed.

(** What [trimEnd] cuts off is white space from end to end. *)
Lemma trimEnd_split (s : string) :
  ∃ w, s = Js.trimEnd s +:+ w ∧ Js.blank w = true.
Proof.
  induction s as [|c s (w & Hs & Hw)]; [by exists EmptyString|].
  rewrite trimEnd_cons. destruct (Js.blank (String c s)) eqn:Hb.
  - by exists (String c s).
  - exists w. by rewrite append_cons, <- Hs.
Qed.

Lemma trimEnd_idempotent (s : string) : Js.trimEnd (Js.trimEnd s) = Js.trimEnd s.
Proof.
  induction s as [|c s IH]; [done|]. rewrite trimEnd_cons.
  destruct (Js.blank (String c s)) eqn:Hb; [done|].
  rewrite trimEnd_cons, IH.
  destruct (Js.blank (String c (Js.trimEnd s))) eqn:Hb'; [|done].
  destruct (trimEnd_split s) as (w & Hs & Hw).
  pose proof (blank_app _ w Hb' Hw) as Hall.
  rewrite append_cons, <- Hs, Hb in Hall. discriminate.
Qed.

Lemma trim_idempotent (s : string) : Js.trim (Js.trim s) = Js.trim s.
Proof.
  unfold Js.trim.
  assert (Hfixed : Js.trimStart (Js.trimEnd (Js.trimStart s))
                   = Js.trimEnd (Js.trimStart s)).
  { apply trimStart_fixed.
    destruct (Js.space_width (Js.trimEnd (Js.trimStart s))) as [|k] eqn:Hw; [done|].
    destruct (trimEnd_split (Js.trimStart s)) as (w & Hs & _).
    apply (space_width_app _ w) in Hw. rewrite <- Hs in Hw.
    unfold Js.trimStart in Hw. by rewrite trimStart_from_width in Hw. }
  by rewrite Hfixed, trimEnd_idempotent.
Qed.

(** Every white-space character of the language is stripped at both ends,
    in any number. *)
Lemma trim_strips_white_space :
  Forall (fun w => Js.trim (w +:+ w +:+ "Yes" +:+ w +:+ w) = "Yes") white_space
  ∧ Js.trim (foldr String.append EmptyString white_space) = EmptyString.
Proof. split; [repeat constructor | reflexivity]. Qed.

(** Characters that only look like white space stay, and so does white
    space inside the text. *)
Lemma trim_keeps_the_rest :
  Forall (fun w => Js.trim (w +:+ "Yes" +:+ w) = w +:+ "Yes" +:+ w) no_white_space
  ∧ Js.trim (" New" +:+ NBSP +:+ "Chat ") = "New" +:+ NBSP +:+ "Chat".
Proof. split; [repeat constructor | reflexivity]. Qed.

(** Submitting the rename form renames at most once, and never to a blank
    name or to one with white space at either end; with a blank name, or with
    no item selected, nothing is renamed and the dialog stays as it is. *)
Theorem submitRename_passes_trimmed_name (d : Sidebar.RenameDialog) :
  length (Sidebar.submitRename d).1 ≤ 1
  ∧ (∀ action, action ∈ (Sidebar.submitRename d).1 →
       ∃ name, new_name_of action = Some name
               ∧ name = Js.trim (Sidebar.newName d)
               ∧ name ≠ EmptyString ∧ trimmed name)
  ∧ (Js.trim (Sidebar.newName d) = EmptyString ∨ Sidebar.renameItem d = None →
     Sidebar.submitRename d = ([], d)).
Proof.
  unfold Sidebar.submitRename.
  destruct (Sidebar.renameItem d) as [item|] eqn:Hitem; last first.
  { repeat split; simpl; [lia | by intros ? ?%elem_of_nil]. }
  destruct (Js.trim (Sidebar.newName d)) as [|c name] eqn:Hname.
  { repeat split; simpl; [lia | by intros ? ?%elem_of_nil]. }
  assert (Htrim : trimmed (String c name)).
  { unfold trimmed. rewrite <- Hname. apply trim_idempotent. }
  split; [|split].
  - destruct item as [p|p [[|k conv]|]]; simpl; lia.
  - intros action Hin. exists (String c name).
    destruct item as [p|p [[|k conv]|]]; simpl in Hin;
      first [by apply elem_of_nil in Hin
            | apply list_elem_of_singleton in Hin; by subst action].
  - intros [?|?]; discriminate.
Qed.

(** A name of no-break spaces is blank: nothing is renamed and the
    dialog stays open. *)
Lemma blank_name_renames_nothing (projectId : string) :
  let d := {| Sidebar.showRenameDialog := true;
              Sidebar.renameItem := Some (Sidebar.ProjectItem projectId);
              Sidebar.newName := NBSP +:+ " " +:+ NBSP |} in
  Sidebar.submitRename d = ([], d).
Proof. reflexivity. Qed.

(** ** The store update *)

(** [updateConversationMessages] replaces the messages of the conversation
    of the given id, stamps it with the time of the call, and changes
    nothing else: ids, names and order of the conversations stay, looking
    the conversation up gives it back with the new messages and the new
    [lastUpdated], and every other conversation is found as before. *)
Theorem updatedConversations_replaces_one (project : Project) (conversationId : string)
    (newMessages : list Message) (now : nat) :
  conversation_id <$> updatedConversations project conversationId newMessages now
    = conversation_id <$> conversations project
  ∧ conversation_name <$> updatedConversations project conversationId newMessages now
    = conversation_name <$> conversations project
  ∧ conversation_of conversationId
      (updatedConversations project conversationId newMessages now)
    = with_messages newMessages now
        <$> conversation_of conversationId (conversations project)
  ∧ ∀ other, other ≠ conversationId →
      conversation_of other (updatedConversations project conversationId newMessages now)
      = conversation_of other (conversations project).
Proof.
  unfold updatedConversations, conversation_of.
  repeat split.
  - rewrite <- list_fmap_compose. apply list_fmap_ext.
    intros i c _. simpl. by case_bool_decide.
  - rewrite <- list_fmap_compose. apply list_fmap_ext.
    intros i c _. simpl. by case_bool_decide.
  - induction (conversations project) as [|c rest IH]; [done|].
    rewrite fmap_cons. simpl.
    destruct (decide (conversation_id c = conversationId)) as [Heq|Hne].
    + rewrite (bool_decide_eq_true_2 _ Heq). simpl.
      by rewrite (bool_decide_eq_true_2 _ Heq).
    + rewrite (bool_decide_eq_false_2 _ Hne). simpl.
      by rewrite (bool_decide_eq_false_2 _ Hne).
  - intros other Hother.
    induction (conversations project) as [|c rest IH]; [done|].
    rewrite fmap_cons. simpl.
    destruct (decide (conversation_id c = conversationId)) as [Heq|Hne].
    + rewrite (bool_decide_eq_true_2 _ Heq). simpl.
      rewrite !bool_decide_eq_false_2 by congruence. exact IH.
    + rewrite (bool_decide_eq_false_2 _ Hne).
      destruct (bool_decide (conversation_id c = other)); [done | exact IH].
Qed.



(** ** Rendering *)

(** The renderer finds, for the tool_use of a message, the content of the
    tool result of the same id when that result is the first of that id in
    the next message: for a message the dispatch appended right after, its
    result or its error text. *)
Theorem toolResultFor_finds_dispatched_result (before after : list Message)
    (m : Message) (id result : string) (is_error : bool) :
  toolResultFor
    (before ++ m :: {| role := user; content := Blocks [ToolResult id result is_error];
                       toolInput := None |} :: after)
    (length before) id
  = Some result.
Proof.
  unfold toolResultFor.
  rewrite lookup_app_r by lia.
  replace (length before + 1 - length before) with 1 by lia. simpl.
  by rewrite bool_decide_eq_true_2.
Qed.

Lemma renderMessage_bubbles (l : list Message) (m : Message) (i : nat) :
  uses m = [] → Forall is_bubble (renderMessage l m i).
Proof.
  unfold renderMessage, uses. destruct (content m) as [blocks|s]; simpl.
  - induction blocks as [|c blocks IH]; [constructor|].
    rewrite fmap_cons. destruct c; simpl; intros Huses;
      first [discriminate | constructor; [done | by apply IH]].
  - intros _. by repeat constructor.
Qed.

Lemma result_message_uses (m : Message) : is_result_message m → uses m = [].
Proof. intros [_ (id & c & e & Hc)]. unfold uses. by rewrite Hc. Qed.

(** No tool call of the current turn is ever shown: in every list a turn
    hands to the store, the messages after the earlier history render as
    text bubbles or as nothing, never as a tool button. *)
Theorem turn_renders_no_tool_button (comp : Component) (project : Project)
    (script : list Iteration) (l : list Message) (i : nat) (m : Message) :
  activeProject comp = Some project →
  l ∈ updates (trace (handleSendMessage comp script).2) →
  length (history comp) ≤ i →
  l !! i = Some m →
  Forall is_bubble (renderMessage l m i).
Proof.
  intros Hp Hl Hi Hm. apply renderMessage_bubbles.
  assert (Hok : working_list_ok (elideToolResults (settings project))
                  (history comp ++ [userMessage comp])
                  (handleSendMessage comp script).2
                ∨ trace (handleSendMessage comp script).2 = []).
  { unfold handleSendMessage. rewrite Hp.
    destruct (Js.trim (inputMessage comp)); [by right|].
    destruct (activeConversationId comp) as [[|c0 id]|]; [by right| |by right].
    destruct (apiKey (settings project)) as [[|c key]|]; [by right| |by right].
    left.
    pose proof (try_block_ok comp project (String c0 id) script) as [Hcur Htr].
    destruct (settle_keeps (try_block comp project (String c0 id) script (initial comp)))
      as [Hc Ht].
    split; [by rewrite Hc | by rewrite Ht]. }
  destruct Hok as [[_ Htr]|Hnil]; [|rewrite Hnil in Hl; by apply elem_of_nil in Hl].
  unfold updates in Hl. apply list_elem_of_omap in Hl as (e & He & Hl).
  rewrite Forall_forall in Htr. specialize (Htr e He).
  destruct e as [pid cid l'| | | | |]; try discriminate. injection Hl as ->.
  assert (Hgrown : ∀ cur, grown_by_results (history comp ++ [userMessage comp]) cur →
            ∀ j x, length (history comp) ≤ j → cur !! j = Some x → uses x = []).
  { intros cur (results & -> & Hres) j x Hj Hx.
    rewrite <- app_assoc in Hx. rewrite lookup_app_r in Hx by done.
    destruct (j - length (history comp)) as [|k]; simpl in Hx.
    - by injection Hx as <-.
    - apply result_message_uses. rewrite Forall_forall in Hres.
      apply Hres. apply list_elem_of_lookup. eauto. }
  destruct Htr as [Hg|(cur & text & Hg & ->)]; [by eapply Hgrown|].
  destruct (decide (i < length cur)) as [Hlt|Hge].
  - rewrite lookup_app_l in Hm by done. by eapply Hgrown.
  - rewrite lookup_app_r in Hm by lia.
    destruct (i - length cur); simpl in Hm; [by injection Hm as <-|].
    by rewrite lookup_nil in Hm.
Qed.

Lemma turn_renders_no_tool_button_witness :
  Forall is_bubble
    (renderMessage
       [text_message user "find it";
        {| role := user; content := Blocks [ToolResult "t1" "42 results" false];
           toolInput := None |}]
       {| role := user; content := Blocks [ToolResult "t1" "42 results" false];
          toolInput := None |} 1).
Proof.
  apply (turn_renders_no_tool_button (new_chat false "find it")
           (chat_project false [srv] []) one_tool_call
           [text_message user "find it";
            {| role := user; content := Blocks [ToolResult "t1" "42 results" false];
               toolInput := None |}]
           1
           {| role := user; content := Blocks [ToolResult "t1" "42 results" false];
              toolInput := None |}).
  - reflexivity.
  - vm_compute. do 2 right. by left.
  - vm_compute. lia.
  - reflexivity.
Defined.

(** ** State properties kept by every step of a turn *)

(** A property of the state that each effect of a turn keeps is kept by
    each phase, by a pass and by the whole loop.  The hypotheses are stated
    per kind of call, so that a phase asks only for the calls it makes. *)
Section Frame.

Variable comp : Component.
Variable project : Project.
Variable conversationId : string.
Variable I : State → Prop.

Hypothesis keeps_push : ∀ m, preserves I (push m).
Hypothesis keeps_saved : ∀ saved, preserves I (set_saved saved).
Hypothesis keeps_cancel : preserves I cancelCurrentCall.
Hypothesis keeps_update :
  ∀ l, preserves I (emit (UpdateMessages (project_id project) conversationId l)).
Hypothesis keeps_judge : ∀ cached, preserves I (emit (JudgeCall cached)).
Hypothesis keeps_stream :
  ∀ payload,
    preserves I
      (emit (StreamCall payload
               match getUniqueTools comp false with
               | [] => None
               | _ => Some (getUniqueTools comp true)
               end)).
Hypothesis keeps_title : ∀ a b, preserves I (emit (TitleCall a b)).
Hypothesis keeps_execute :
  ∀ server name input,
    serverWithTool comp name = Some server →
    preserves I (emit (ExecuteTool (server_id server) name input)).
Hypothesis keeps_rename :
  ∀ text c title,
    suggestedTitle text = String c title →
    preserves I (emit (RenameConversation (project_id project) conversationId
                         (String c title))).

Lemma frame_await {A} (call : Await A) : preserves I (await call).
Proof.
  unfold await. apply preserves_bind.
  - destruct (stop_pressed call); [exact keeps_cancel | apply preserves_ret].
  - intros _. destruct (settles call); [apply preserves_ret | apply preserves_throw].
Qed.

Lemma frame_on_text (deltas : list string) :
  ∀ text, preserves I (on_text project conversationId text deltas).
Proof.
  induction deltas as [|delta rest IH]; intros text; simpl.
  - apply preserves_ret.
  - apply preserves_get. intros st0 _. apply preserves_bind.
    + apply keeps_update.
    + intros _. apply IH.
Qed.

Lemma frame_judge_phase (it : Iteration) (cached : list ApiMessage) :
  preserves I (judge_phase project it cached).
Proof.
  unfold judge_phase. destruct (elideToolResults _); [|apply preserves_ret].
  apply preserves_bind.
  - destruct (last cached) as [lastMessage|]; [|apply preserves_throw].
    destruct (api_content lastMessage) as [[|first more]|s];
      first [apply preserves_ret | apply preserves_throw].
  - intros [[| |]|]; try apply preserves_ret.
    apply preserves_bind; [apply keeps_judge|]. intros _.
    apply preserves_bind; [apply frame_await|].
    intros [|[text| |] more]; first [apply preserves_ret | apply preserves_throw | idtac].
    apply preserves_get. intros st0 _.
    apply preserves_bind; [apply preserves_lift|]. intros saved. apply keeps_saved.
Qed.

Lemma frame_request_phase (it : Iteration) :
  preserves I (request_phase comp project conversationId it).
Proof.
  unfold request_phase. apply preserves_get. intros st0 _.
  apply preserves_bind; [apply frame_judge_phase|]. intros _.
  apply preserves_get. intros st1 _.
  apply preserves_bind; [|intros finalResponse; apply preserves_ret].
  unfold stream_phase.
  apply preserves_bind; [apply keeps_stream|].
  intros _. apply preserves_bind; [apply frame_on_text|]. intros _. apply frame_await.
Qed.

Lemma frame_title_phase (it : Iteration) (cached : list ApiMessage) :
  preserves I (title_phase comp project conversationId it cached).
Proof.
  unfold title_phase.
  destruct (activeConversation comp); [|apply preserves_ret].
  destruct cached as [|first [|second [|third more]]]; try apply preserves_ret.
  apply preserves_bind; [apply keeps_title|]. intros _.
  apply preserves_bind; [apply frame_await|].
  intros [|[text| |] more]; first [apply preserves_ret | apply preserves_throw | idtac].
  destruct (suggestedTitle text) as [|k title] eqn:Htitle;
    [apply preserves_ret | by apply (keeps_rename text)].
Qed.

Lemma frame_tool_failed (id : string) (e : Thrown) :
  preserves I (tool_failed project conversationId id e).
Proof.
  unfold tool_failed.
  apply preserves_bind; [apply keeps_push|]. intros _.
  apply preserves_get. intros st0 _.
  apply preserves_bind; [apply keeps_update|]. intros _.
  apply preserves_get. intros st1 _. apply preserves_ret.
Qed.

Lemma frame_tool_phase (it : Iteration) (finalResponse : list MessageContent) :
  preserves I (tool_phase comp project conversationId it finalResponse).
Proof.
  unfold tool_phase.
  destruct (List.find is_tool_use finalResponse) as [[text|id name input|i k e]|];
    try apply preserves_ret.
  destruct (serverWithTool comp name) as [server|] eqn:Hserver;
    [|apply frame_tool_failed].
  apply preserves_bind; [by apply keeps_execute|]. intros _.
  apply preserves_bind.
  { destruct (stop_pressed _); [exact keeps_cancel | apply preserves_ret]. }
  intros _. destruct (settles (tool_reply it)) as [result|e]; [|apply frame_tool_failed].
  apply preserves_bind; [apply keeps_push|]. intros _.
  apply preserves_get. intros st0 _.
  apply preserves_bind; [apply keeps_update|]. intros _. apply preserves_ret.
Qed.

Lemma frame_loop_body (it : Iteration) :
  preserves I (loop_body comp project conversationId it).
Proof.
  unfold loop_body. apply preserves_bind; [apply frame_request_phase|].
  intros sent. apply preserves_bind; [apply frame_title_phase|].
  intros _. apply frame_tool_phase.
Qed.

Lemma frame_loop (script : list Iteration) :
  preserves I (loop comp project conversationId script).
Proof.
  induction script as [|it rest IH]; simpl; [apply preserves_ret|].
  apply preserves_bind; [apply frame_loop_body|].
  intros [|]; [apply IH | apply preserves_ret].
Qed.

Lemma frame_try_block (script : list Iteration) :
  preserves I (try_block comp project conversationId script).
Proof.
  unfold try_block. apply preserves_bind; [apply keeps_push|]. intros _.
  apply preserves_get. intros st0 _.
  apply preserves_bind; [apply keeps_update|]. intros _. apply frame_loop.
Qed.

End Frame.

(** ** What a turn calls *)

Lemma emit_known (comp : Component) (project : Project) (conversationId : string)
    (e : Event) :
  known_call comp project conversationId e →
  preserves (fun st => Forall (known_call comp project conversationId) (trace st))
            (emit e).
Proof.
  intros He st Hst. simpl. apply Forall_app. split; [done|]. by constructor.
Qed.

Lemma turn_calls_known (comp : Component) (project : Project) (conversationId : string)
    (script : list Iteration) :
  Forall (known_call comp project conversationId)
    (trace (try_block comp project conversationId script (initial comp)).2).
Proof.
  apply (frame_try_block comp project conversationId
           (fun st => Forall (known_call comp project conversationId) (trace st))).
  - by intros m st Hst.
  - by intros saved st Hst.
  - by intros st Hst.
  - intros l. by apply emit_known.
  - intros cached. by apply emit_known.
  - intros payload. by apply emit_known.
  - intros a b. by apply emit_known.
  - intros server name input Hserver. apply emit_known. by exists server.
  - intros text c title Htitle. apply emit_known. repeat split; [done|]. by exists text.
  - constructor.
Qed.

(** The calls of [handleSendMessage], guards included. *)
Lemma handleSendMessage_calls_known (comp : Component) (script : list Iteration) :
  trace (handleSendMessage comp script).2 = []
  ∨ ∃ project conversationId,
      activeProject comp = Some project
      ∧ activeConversationId comp = Some conversationId
      ∧ Forall (known_call comp project conversationId)
          (trace (handleSendMessage comp script).2).
Proof.
  unfold handleSendMessage.
  destruct (Js.trim (inputMessage comp)); [by left|].
  destruct (activeProject comp) as [project|]; [|by left].
  destruct (activeConversationId comp) as [[|c0 id]|]; [by left| |by left].
  destruct (apiKey (settings project)) as [[|c key]|]; [by left| |by left].
  right. exists project, (String c0 id). repeat split.
  destruct (settle_keeps (try_block comp project (String c0 id) script (initial comp)))
    as [_ ->].
  apply turn_calls_known.
Qed.

(** A turn runs a tool only on a connected server that advertises a tool of
    that name, and on the first such server. *)
Theorem tools_run_on_first_advertising_server (comp : Component)
    (script : list Iteration) (serverId name : string) (input : Json) :
  ExecuteTool serverId name input ∈ trace (handleSendMessage comp script).2 →
  ∃ server tools t,
    serverWithTool comp name = Some server
    ∧ server_id server = serverId
    ∧ server ∈ servers comp
    ∧ server_tools server = Some tools ∧ t ∈ tools ∧ tool_name t = name.
Proof.
  intros Hin.
  destruct (handleSendMessage_calls_known comp script)
    as [Hnil|(project & cid & _ & _ & Hknown)].
  { rewrite Hnil in Hin. by apply elem_of_nil in Hin. }
  rewrite Forall_forall in Hknown. destruct (Hknown _ Hin) as (server & Hfound & Hid).
  pose proof Hfound as Hserver. unfold serverWithTool in Hserver.
  apply find_some in Hserver as [Hs Htools].
  destruct (server_tools server) as [tools|] eqn:Hst; [|discriminate].
  apply existsb_exists in Htools as (t & Ht & Hname).
  apply bool_decide_eq_true in Hname.
  exists server, tools, t. repeat split; try done; by apply list_elem_of_In.
Qed.

Lemma tools_run_witness :
  ∃ server tools t,
    serverWithTool (two_servers "find it") "search" = Some server
    ∧ server_id server = "other"
    ∧ server ∈ servers (two_servers "find it")
    ∧ server_tools server = Some tools ∧ t ∈ tools ∧ tool_name t = "search".
Proof.
  apply (tools_run_on_first_advertising_server (two_servers "find it")
           one_tool_call "other" "search" "{}").
  vm_compute. do 3 right. by left.
Defined.

(** *** Titles *)

Lemma has_char_drop (cls : ascii → bool) (n : nat) :
  ∀ s, has_char cls (Js.drop n s) = true → has_char cls s = true.
Proof.
  induction n as [|n IH]; intros [|c s]; simpl; try done.
  intros H. apply IH in H. rewrite H. apply orb_true_r.
Qed.

Lemma replace_first_eq (pat s : string) :
  Js.replace_first pat s
  = if String.prefix pat s then Js.drop (String.length pat) s
    else match s with
         | EmptyString => EmptyString
         | String c rest => String c (Js.replace_first pat rest)
         end.
Proof. by destruct s. Qed.

Lemma has_char_replace_first (cls : ascii → bool) (pat s : string) :
  has_char cls (Js.replace_first pat s) = true → has_char cls s = true.
Proof.
  induction s as [|c s IH]; rewrite replace_first_eq;
    (destruct (String.prefix pat _); [apply has_char_drop|]); [done|].
  simpl. intros [->| H]%orb_true_iff; [done|]. rewrite (IH H). apply orb_true_r.
Qed.

Lemma has_char_trimStart_from (cls : ascii → bool) (s : string) :
  ∀ skip, has_char cls (Js.trimStart_from skip s) = true → has_char cls s = true.
Proof.
  induction s as [|c s IH]; intros skip; [by destruct skip|].
  rewrite trimStart_from_cons.
  assert (Hrest : ∀ k, has_char cls (Js.trimStart_from k s) = true →
                       has_char cls (String c s) = true).
  { intros k H. simpl. rewrite (IH k H). apply orb_true_r. }
  destruct skip as [|k]; [|apply Hrest].
  destruct (Js.space_width (String c s)); [done | apply Hrest].
Qed.

Lemma has_char_trimStart (cls : ascii → bool) (s : string) :
  has_char cls (Js.trimStart s) = true → has_char cls s = true.
Proof. apply has_char_trimStart_from. Qed.

Lemma has_char_trimEnd (cls : ascii → bool) (s : string) :
  has_char cls (Js.trimEnd s) = true → has_char cls s = true.
Proof.
  induction s as [|c s IH]; [done|]. rewrite trimEnd_cons.
  destruct (Js.blank (String c s)); [done|]. simpl.
  intros [->|H]%orb_true_iff; [done|]. rewrite (IH H). apply orb_true_r.
Qed.

Lemma has_char_remove_all (cls : ascii → bool) (s : string) :
  has_char cls (Js.remove_all cls s) = false.
Proof.
  induction s as [|c s IH]; simpl; [done|].
  destruct (cls c) eqn:Hc; [done|]. simpl. by rewrite Hc.
Qed.

(** A title reply that is blank once the quotes and the word are gone
    gives no title, so nothing is renamed. *)
Lemma blank_title_is_empty :
  suggestedTitle ("Title:" +:+ NBSP) = EmptyString
  ∧ suggestedTitle (NBSP +:+ "'Weather Forecast'" +:+ NBSP +:+ LF) = "Weather Forecast".
Proof. split; reflexivity. Qed.

Lemma suggestedTitle_clean (text : string) :
  has_char is_quote (suggestedTitle text) = false ∧ trimmed (suggestedTitle text).
Proof.
  split; [|apply trim_idempotent].
  unfold suggestedTitle, Js.trim.
  destruct (has_char is_quote _) eqn:H; [|done].
  apply has_char_trimEnd, has_char_trimStart in H.
  do 4 apply has_char_replace_first in H.
  by rewrite has_char_remove_all in H.
Qed.

(** A turn renames only the active conversation, and only to a title that is
    not empty, holds no quote character and has no white space at either
    end. *)
Theorem renames_carry_clean_titles (comp : Component) (script : list Iteration)
    (projectId conversationId name : string) :
  RenameConversation projectId conversationId name
    ∈ trace (handleSendMessage comp script).2 →
  activeProjectId comp = Some projectId
  ∧ activeConversationId comp = Some conversationId
  ∧ name ≠ EmptyString
  ∧ has_char is_quote name = false
  ∧ trimmed name.
Proof.
  intros Hin.
  destruct (handleSendMessage_calls_known comp script)
    as [Hnil|(project & cid & Hp & Hc & Hknown)].
  { rewrite Hnil in Hin. by apply elem_of_nil in Hin. }
  rewrite Forall_forall in Hknown.
  destruct (Hknown _ Hin) as (-> & -> & Hne & text & ->).
  unfold activeProject in Hp. apply find_some in Hp as [_ Hid].
  apply bool_decide_eq_true in Hid.
  destruct (suggestedTitle_clean text) as [Hquote Htrim]. done.
Qed.

Lemma renames_carry_clean_titles_witness :
  activeProjectId (new_chat false "find it") = Some "p1"
  ∧ activeConversationId (new_chat false "find it") = Some "c1"
  ∧ "Weather Forecast" ≠ EmptyString
  ∧ has_char is_quote "Weather Forecast" = false
  ∧ trimmed "Weather Forecast".
Proof.
  apply (renames_carry_clean_titles (new_chat false "find it")
           [asks_search "t1" (resolved "42 results");
            with_title (resolved [TextBlock "Title: Weather Forecast"]) (says "Done")]
           "p1" "c1" "Weather Forecast").
  vm_compute. do 8 right. by left.
Defined.

(** ** The banner *)

Lemma loop_outcome (comp : Component) (project : Project) (conversationId : string)
    (script : list Iteration) :
  ∀ st o, (loop comp project conversationId script st).1 = Ok o →
          o = Finished ∨ o = Pending.
Proof.
  induction script as [|it rest IH]; intros st o; simpl.
  - intros [= <-]. by right.
  - unfold bind.
    destruct (loop_body comp project conversationId it st) as [[[|]|e] st1]; simpl.
    + apply IH.
    + intros [= <-]. by left.
    + discriminate.
Qed.

Lemma try_block_outcome (comp : Component) (project : Project) (conversationId : string)
    (script : list Iteration) (st : State) (o : Outcome) :
  (try_block comp project conversationId script st).1 = Ok o →
  o = Finished ∨ o = Pending.
Proof.
  unfold try_block, bind, push, get, updateConversationMessages, emit.
  apply loop_outcome.
Qed.


Lemma turn_banner_agrees (comp : Component) (project : Project) (conversationId : string)
    (script : list Iteration) :
  banner_agrees (try_block comp project conversationId script (initial comp)).2.
Proof.
  apply (frame_try_block comp project conversationId banner_agrees);
    try (intros; intros st Hst; exact Hst).
  - intros st _. unfold banner_agrees. right. split; reflexivity.
  - unfold banner_agrees. left. split; reflexivity.
Qed.

(** *** Passes during which stop is not pressed *)

Section Quiet.

Variable comp : Component.
Variable project : Project.
Variable conversationId : string.

Lemma quiet_emit (e : Event) : preserves flag_down (emit e).
Proof. by intros st. Qed.

Lemma quiet_push (m : Message) : preserves flag_down (push m).
Proof. by intros st. Qed.

Lemma quiet_await {A} (call : Await A) :
  stop_pressed call = false → preserves flag_down (await call).
Proof.
  intros Hcall. unfold await. rewrite Hcall.
  apply preserves_bind; [apply preserves_ret|]. intros _.
  destruct (settles call); [apply preserves_ret | apply preserves_throw].
Qed.

Lemma quiet_tool_failed (id : string) (e : Thrown) :
  preserves flag_down (tool_failed project conversationId id e).
Proof.
  apply frame_tool_failed; intros; first [apply quiet_push | apply quiet_emit].
Qed.

Lemma quiet_loop_body (it : Iteration) :
  stop_in it = false → preserves flag_down (loop_body comp project conversationId it).
Proof.
  unfold stop_in. intros Hit.
  apply orb_false_elim in Hit as [Hit Htool].
  apply orb_false_elim in Hit as [Hit Htitle].
  apply orb_false_elim in Hit as [Hjudge Hstream].
  unfold loop_body. apply preserves_bind; [|intros sent; apply preserves_bind].
  - unfold request_phase. apply preserves_get. intros st0 _.
    apply preserves_bind.
    { unfold judge_phase. destruct (elideToolResults _); [|apply preserves_ret].
      apply preserves_bind.
      - destruct (last _) as [lastMessage|]; [|apply preserves_throw].
        destruct (api_content lastMessage) as [[|first more]|s];
          first [apply preserves_ret | apply preserves_throw].
      - intros [[| |]|]; try apply preserves_ret.
        apply preserves_bind; [apply quiet_emit|]. intros _.
        apply preserves_bind; [by apply quiet_await|].
        intros [|[text| |] more];
          first [apply preserves_ret | apply preserves_throw | idtac].
        apply preserves_get. intros st1 _.
        apply preserves_bind; [apply preserves_lift|]. by intros saved st. }
    intros _. apply preserves_get. intros st1 _.
    apply preserves_bind; [|intros finalResponse; apply preserves_ret].
    unfold stream_phase. apply preserves_bind; [apply quiet_emit|]. intros _.
    apply preserves_bind; [|intros _; by apply quiet_await].
    apply frame_on_text. intros l. apply quiet_emit.
  - unfold title_phase.
    destruct (activeConversation comp); [|apply preserves_ret].
    destruct sent.1 as [|first [|second [|third more]]]; try apply preserves_ret.
    apply preserves_bind; [apply quiet_emit|]. intros _.
    apply preserves_bind; [by apply quiet_await|].
    intros [|[text| |] more];
      first [apply preserves_ret | apply preserves_throw | idtac].
    destruct (suggestedTitle text); [apply preserves_ret | apply quiet_emit].
  - intros _. unfold tool_phase.
    destruct (List.find is_tool_use sent.2) as [[text|id name input|i k e]|];
      try apply preserves_ret.
    destruct (serverWithTool comp name) as [server|]; [|apply quiet_tool_failed].
    apply preserves_bind; [apply quiet_emit|]. intros _. rewrite Htool.
    apply preserves_bind; [apply preserves_ret|]. intros _.
    destruct (settles (tool_reply it)) as [result|e]; [|apply quiet_tool_failed].
    apply preserves_bind; [apply quiet_push|]. intros _.
    apply preserves_get. intros st0 _.
    apply preserves_bind; [apply quiet_emit|]. intros _. apply preserves_ret.
Qed.

Lemma quiet_loop (script : list Iteration) :
  Forall (fun it => stop_in it = false) script →
  preserves flag_down (loop comp project conversationId script).
Proof.
  induction 1 as [|it rest Hit Hrest IH]; simpl; [apply preserves_ret|].
  apply preserves_bind; [by apply quiet_loop_body|].
  intros [|]; [apply IH | apply preserves_ret].
Qed.

Lemma quiet_try_block (script : list Iteration) :
  Forall (fun it => stop_in it = false) script →
  preserves flag_down (try_block comp project conversationId script).
Proof.
  intros Hquiet. unfold try_block. apply preserves_bind; [apply quiet_push|]. intros _.
  apply preserves_get. intros st0 _.
  apply preserves_bind; [apply quiet_emit|]. intros _. by apply quiet_loop.
Qed.

End Quiet.

(** When the [try] block is left, by [break] or by a throw, with the cancel
    flag up, the banner reads 'Operation cancelled' once [catch] and
    [finally] have run: the [catch] does not overwrite it.  With the flag
    down the banner is empty after [break] and shows the error's message
    after a throw.  The flag is down whenever stop was pressed during none
    of the calls of the script. *)
Theorem banner_after_turn (comp : Component) (project : Project)
    (conversationId : string) (script : list Iteration) :
  let r := try_block comp project conversationId script (initial comp) in
  error (settle r).2 = banner (shouldCancel r.2) r.1
  ∧ (Forall (fun it => stop_in it = false) script → shouldCancel r.2 = false).
Proof.
  intros r. split.
  - pose proof (turn_banner_agrees comp project conversationId script) as Hb.
    fold r in Hb. unfold settle, banner.
    destruct r as [[o|e] st]; simpl in *;
      destruct Hb as [[Herr ->]|[Herr ->]]; by rewrite ?Herr.
  - intros Hquiet. by apply (quiet_try_block comp project conversationId script Hquiet).
Qed.

(** Stop is pressed while the first request streams, and the request is
    then rejected: the banner keeps the cancellation. *)
Lemma banner_after_turn_witness :
  let script := [{| judge_reply := unused; stream_deltas := ["Sear"];
                    stream_final := {| settles := Rejected (ErrorObj "Request aborted");
                                       stop_pressed := true |};
                    title_reply := unused; tool_reply := unused |}] in
  let r := try_block (new_chat false "find it") (chat_project false [srv] []) "c1"
             script (initial (new_chat false "find it")) in
  (r.1 = Throw (ErrorObj "Request aborted") ∧ shouldCancel r.2 = true
   ∧ handleSendMessage (new_chat false "find it") script = settle r)
  ∧ error (settle r).2 = banner (shouldCancel r.2) r.1
  ∧ (Forall (fun it => stop_in it = false) script → shouldCancel r.2 = false).
Proof.
  split; [by vm_compute|].
  apply (banner_after_turn (new_chat false "find it") (chat_project false [srv] []) "c1").
Defined.

(** ** The first call of a turn *)

Lemma settle_not_skipped (comp : Component) (project : Project)
    (conversationId : string) (script : list Iteration) :
  (settle (try_block comp project conversationId script (initial comp))).1 ≠ Skipped.
Proof.
  unfold settle.
  destruct (try_block comp project conversationId script (initial comp))
    as [[o|e'] st'] eqn:Htry; simpl; [|done].
  destruct (try_block_outcome comp project conversationId script (initial comp) o)
    as [-> | ->]; [by rewrite Htry|done|done].
Qed.

(** A turn is stopped by a guard exactly when the input is blank, no
    project or no conversation is active, or the project has no API key;
    a turn so stopped makes no call at all.  Any other turn first stores
    the history with the user message appended, before anything is sent. *)
Theorem user_message_stored_first (comp : Component) (script : list Iteration) :
  ((handleSendMessage comp script).1 = Skipped ↔ ¬ passes_guards comp)
  ∧ match (handleSendMessage comp script).1 with
    | Skipped => trace (handleSendMessage comp script).2 = []
    | _ =>
        ∃ projectId conversationId rest,
          trace (handleSendMessage comp script).2
          = UpdateMessages projectId conversationId (history comp ++ [userMessage comp])
            :: rest
    end.
Proof.
  unfold handleSendMessage, passes_guards.
  destruct (Js.trim (inputMessage comp)) as [|c1 input].
  { split; [|done]. split; [|done]. by intros _ [Hin _]. }
  destruct (activeProject comp) as [project|]; last first.
  { split; [|done]. split; [|done]. by intros _ (_ & p & Hp & _). }
  destruct (activeConversationId comp) as [[|c0 id]|] eqn:Hconv.
  { split; [|done]. split; [|done].
    intros _ (_ & p & _ & (i & [= <-] & Hi) & _). done. }
  2: { split; [|done]. split; [|done].
       intros _ (_ & p & _ & (i & Hi & _) & _). done. }
  destruct (apiKey (settings project)) as [[|c key]|] eqn:Hkey.
  { split; [|done]. split; [|done].
    intros _ (_ & p & [= <-] & _ & k & Hk & Hne). congruence. }
  2: { split; [|done]. split; [|done].
       intros _ (_ & p & [= <-] & _ & k & Hk & _). congruence. }
  pose proof (settle_not_skipped comp project (String c0 id) script) as Hns.
  split.
  { split; [done|]. intros Hno. exfalso. apply Hno.
    split; [done|]. exists project. split; [done|]. split; eauto. }
  set (first := UpdateMessages (project_id project) (String c0 id)
                  (history comp ++ [userMessage comp])).
  assert (Hstart : starts_with first
                     (try_block comp project (String c0 id) script (initial comp)).2).
  { unfold try_block. erewrite bind_throw by reflexivity.
    unfold bind at 1, get at 1. cbn [fst snd].
    erewrite bind_throw by reflexivity.
    apply (frame_loop comp project (String c0 id) (starts_with first));
      try (intros; intros st Hst; exact Hst);
      try (intros; intros st [rest Hst]; eexists (rest ++ [_]); simpl;
           by rewrite Hst).
    by exists []. }
  destruct Hstart as [rest Hrest].
  destruct (settle_keeps (try_block comp project (String c0 id) script (initial comp)))
    as [_ Ht].
  assert (Hgoal : ∃ projectId conversationId rest0,
            trace (settle (try_block comp project (String c0 id) script (initial comp))).2
            = UpdateMessages projectId conversationId (history comp ++ [userMessage comp])
              :: rest0).
  { exists (project_id project), (String c0 id), rest. by rewrite Ht, Hrest. }
  destruct (settle _).1; done.
Qed.

(** An input of no-break spaces is blank: the turn is stopped at the first
    guard. *)
Lemma blank_input_is_skipped (script : list Iteration) :
  handleSendMessage (new_chat false (NBSP +:+ " " +:+ NBSP)) script
  = (Skipped, guarded None).
Proof. reflexivity. Qed.

(** ** The tool dispatch *)

(** For a response that holds a tool_use, the dispatch appends exactly one
    message to the working list, a tool result carrying the id of the first
    tool_use block, and stores the list; the tool is executed at most once,
    on the server found for its name; the result is flagged as an error
    unless a server was found and the call resolved.  The pass goes round
    again after a resolved call, and after a failed one unless the cancel
    flag is up.  For a response without tool_use nothing happens and the
    loop is left. *)
Theorem tool_phase_answers_first_tool_use (comp : Component) (project : Project)
    (conversationId : string) (it : Iteration) (finalResponse : list MessageContent)
    (st : State) :
  let r := tool_phase comp project conversationId it finalResponse st in
  match List.find is_tool_use finalResponse with
  | Some (ToolUse id name input) =>
      ∃ text is_error,
        currentMessages r.2 = currentMessages st ++ [result_message id text is_error]
        ∧ last (trace r.2)
          = Some (UpdateMessages (project_id project) conversationId (currentMessages r.2))
        ∧ executed_on (trace r.2)
          = executed_on (trace st)
            ++ match serverWithTool comp name with
               | Some server => [server_id server]
               | None => []
               end
        ∧ (is_error = false ↔
           ∃ server, serverWithTool comp name = Some server
                     ∧ settles (tool_reply it) = Resolved text)
        ∧ r.1 = Ok match serverWithTool comp name, settles (tool_reply it) with
                   | Some _, Resolved _ => Continue
                   | Some _, Rejected _ =>
                       if shouldCancel st || stop_pressed (tool_reply it)
                       then Break else Continue
                   | None, _ => if shouldCancel st then Break else Continue
                   end
  | _ => r = (Ok Break, st)
  end.
Proof.
  unfold tool_phase.
  destruct (List.find is_tool_use finalResponse) as [[text|id name input|i k e]|];
    try done.
  destruct (serverWithTool comp name) as [server|].
  - destruct (settles (tool_reply it)) as [result|e] eqn:Hsettled.
    + exists result, false. unfold bind; simpl.
      destruct (stop_pressed (tool_reply it)); simpl;
        (split; [done|split; [by rewrite last_snoc|split; [|split; [|done]]]]);
        first [unfold executed_on; rewrite !omap_app; simpl; by rewrite ?app_nil_r
              | split; [intros _; by exists server | done]].
    + eexists _, true. unfold bind; simpl.
      destruct (stop_pressed (tool_reply it)), (shouldCancel st); simpl;
        (split; [done|split; [by rewrite last_snoc|split; [|split; [|done]]]]);
        first [unfold executed_on; rewrite !omap_app; simpl; by rewrite ?app_nil_r
              | split; [done | by intros (? & _ & ?)]].
  - eexists _, true. unfold bind; simpl.
    split; [done|split; [by rewrite last_snoc|split; [|split; [|done]]]].
    + unfold executed_on. rewrite omap_app. simpl. by rewrite !app_nil_r.
    + split; [done | by intros (? & ? & _)].
Qed.

Lemma tool_phase_without_server_witness :
  let comp := chat false [] [] [] "find it" in
  let st := second_pass in
  let appended :=
    currentMessages st ++
      [{| role := user;
          content := Blocks [ToolResult "t2" ("Error: No server found for tool " +:+ "search") true];
          toolInput := None |}] in
  let r := tool_phase comp (chat_project false [] []) "c1"
             (asks_search "t2" unused)
             [TextBlock "Searching"; ToolUse "t2" "search" "{}"] st in
  r.1 = Ok (if shouldCancel st then Break else Continue)
  ∧ currentMessages r.2 = appended
  ∧ trace r.2 = trace st ++ [UpdateMessages (project_id (chat_project false [] [])) "c1" appended].
Proof.
  apply (tool_phase_without_server (chat false [] [] [] "find it")
           (chat_project false [] []) "c1" (asks_search "t2" unused)
           [TextBlock "Searching"; ToolUse "t2" "search" "{}"] "t2" "search" "{}"
           second_pass).
  - reflexivity.
  - reflexivity.
Defined.

Lemma says_asks_no_tool (text : string) : ¬ asks_for_tool (says text).
Proof.
  intros (finalResponse & id & name & input & Hfinal & Hfind).
  simpl in Hfinal. injection Hfinal as <-. discriminate Hfind.
Defined.

Lemma loop_settles_witness :
  (loop (new_chat false "find it") (chat_project false [srv] []) "c1"
     ([asks_search "t1" (resolved "42 results")] ++ [says "Done"]) (initial (new_chat false "find it"))).1
  ≠ Ok Pending.
Proof.
  apply (loop_settles (new_chat false "find it") (chat_project false [srv] []) "c1"
           [asks_search "t1" (resolved "42 results")] (says "Done")
           (says_asks_no_tool "Done") (initial (new_chat false "find it"))).
Defined.

(** ** A turn answered in plain text *)

Lemma append_nil_r (s : string) : s +:+ EmptyString = s.
Proof.
  induction s as [|c s IH]; [done|].
  change (String c (s +:+ EmptyString) = String c s). by rewrite IH.
Qed.

Lemma append_assoc (a b c : string) : (a +:+ b) +:+ c = a +:+ (b +:+ c).
Proof.
  induction a as [|x a IH]; [done|].
  change (String x ((a +:+ b) +:+ c) = String x (a +:+ (b +:+ c))). by rewrite IH.
Qed.

Lemma on_text_run (project : Project) (conversationId : string) (deltas : list string) :
  ∀ text st,
    on_text project conversationId text deltas st
    = (Ok tt, add_calls (upserts (project_id project) conversationId
                           (currentMessages st) text deltas) st).
Proof.
  induction deltas as [|delta rest IH]; intros text st; simpl.
  - unfold ret, add_calls. rewrite app_nil_r. by destruct st.
  - unfold bind, get, updateConversationMessages, emit. simpl.
    rewrite IH. unfold add_calls. simpl. by rewrite <- app_assoc.
Qed.

Lemma omap_upserts {B} (f : Event → option B) (projectId conversationId : string)
    (working : list Message) (deltas : list string) :
  (∀ l, f (UpdateMessages projectId conversationId l) = None) →
  ∀ text, omap f (upserts projectId conversationId working text deltas) = [].
Proof.
  intros Hf. induction deltas as [|delta rest IH]; intros text; simpl; [done|].
  by rewrite Hf, IH.
Qed.

Lemma stored_upserts (projectId conversationId : string) (working : list Message)
    (deltas : list string) :
  ∀ text tr,
    stored (tr ++ upserts projectId conversationId working text deltas)
    = match deltas with
      | [] => stored tr
      | _ => Some (working ++ [{| role := assistant;
                                  content := Blocks [TextBlock (text +:+ streamed deltas)];
                                  toolInput := None |}])
      end.
Proof.
  induction deltas as [|delta rest IH]; intros text tr; simpl.
  - by rewrite app_nil_r.
  - rewrite (cons_middle _ tr), app_assoc, IH.
    destruct rest as [|d rest'].
    + unfold stored. rewrite omap_app. simpl. rewrite last_snoc.
      unfold streamed. simpl. by rewrite append_nil_r.
    + unfold streamed. simpl. by rewrite append_assoc.
Qed.

(** In the first pass of a turn the working list ends with the user's text,
    so the judge is not consulted, elision on or off. *)
Lemma judge_phase_after_user_message (comp : Component) (project : Project)
    (it : Iteration) (st : State) :
  judge_phase project it (cachedApiMessages (history comp ++ [userMessage comp])) st
  = (Ok tt, st).
Proof.
  unfold judge_phase. destruct (elideToolResults _); [|done].
  rewrite last_lookup, cached_length, cached_lookup, length_app. simpl.
  replace (Nat.pred (length (history comp) + 1)) with (length (history comp) + 0) by lia.
  rewrite lookup_app_r by lia.
  replace (length (history comp) + 0 - length (history comp)) with 0 by lia. simpl.
  unfold shape_message.
  destruct (Nat.ltb_spec (length (history comp) + 0 + 3) (length (history comp) + 1));
    [lia|]. done.
Qed.

Lemma bind_get {B} (k : State → M B) (st : State) : bind get k st = k st st.
Proof. reflexivity. Qed.

(** The streamed request, run: the request is recorded, then one store
    update per delta, then the stop button takes effect if pressed. *)
Lemma stream_phase_run (comp : Component) (project : Project) (conversationId : string)
    (it : Iteration) (toSend : list ApiMessage) (finalResponse : list MessageContent)
    (st : State) :
  settles (stream_final it) = Resolved finalResponse →
  let sent :=
    add_calls
      (StreamCall toSend
         match getUniqueTools comp false with
         | [] => None
         | _ => Some (getUniqueTools comp true)
         end
       :: upserts (project_id project) conversationId (currentMessages st) EmptyString
            (stream_deltas it)) st in
  stream_phase comp project conversationId it toSend st
  = (Ok finalResponse,
     if stop_pressed (stream_final it) then (cancelCurrentCall sent).2 else sent).
Proof.
  intros Hfinal sent. unfold stream_phase.
  erewrite bind_throw by (unfold emit; reflexivity).
  erewrite bind_throw by apply on_text_run.
  unfold await. rewrite Hfinal.
  assert (Hsent : add_calls
            (upserts (project_id project) conversationId (currentMessages st)
               EmptyString (stream_deltas it))
            {| currentMessages := currentMessages st;
               savedToolResults := savedToolResults st;
               shouldCancel := shouldCancel st;
               isLoading := isLoading st;
               error := error st;
               trace := trace st ++
                 [StreamCall toSend
                    match getUniqueTools comp false with
                    | [] => None
                    | _ => Some (getUniqueTools comp true)
                    end] |} = sent).
  { subst sent. unfold add_calls. simpl. by rewrite <- app_assoc. }
  cbn [currentMessages]. rewrite Hsent.
  by destruct (stop_pressed (stream_final it)).
Qed.

(** One pass from the working list of a fresh turn, when the response holds
    no tool_use and no title call is due. *)
Lemma loop_body_plain (comp : Component) (project : Project) (conversationId : string)
    (it : Iteration) (finalResponse : list MessageContent) (st : State) :
  currentMessages st = history comp ++ [userMessage comp] →
  length (history comp) ≠ 1 →
  settles (stream_final it) = Resolved finalResponse →
  List.find is_tool_use finalResponse = None →
  let working := history comp ++ [userMessage comp] in
  let sent :=
    add_calls
      (StreamCall
         (apiMessagesToSend (elideToolResults (settings project))
            (newestToolResultId working) (savedToolResults st)
            (cachedApiMessages working))
         match getUniqueTools comp false with
         | [] => None
         | _ => Some (getUniqueTools comp true)
         end
       :: upserts (project_id project) conversationId working EmptyString
            (stream_deltas it)) st in
  loop_body comp project conversationId it st
  = (Ok Break,
     if stop_pressed (stream_final it) then (cancelCurrentCall sent).2 else sent).
Proof.
  intros Hcur Hlen Hfinal Hfind working sent.
  assert (Hreq : request_phase comp project conversationId it st
                 = (Ok (cachedApiMessages working, finalResponse),
                    if stop_pressed (stream_final it)
                    then (cancelCurrentCall sent).2 else sent)).
  { unfold request_phase. rewrite bind_get. cbv beta zeta. rewrite Hcur.
    rewrite (bind_throw _ _ _ _ _ (judge_phase_after_user_message comp project it st)).
    rewrite bind_get. cbv beta zeta.
    erewrite bind_throw by (by apply stream_phase_run).
    subst sent working. by rewrite Hcur. }
  unfold loop_body. rewrite (bind_throw _ _ _ _ _ Hreq). cbn [fst snd].
  erewrite bind_throw; last first.
  { apply title_phase_other_lengths. subst working.
    rewrite cached_length, length_app. simpl. lia. }
  unfold tool_phase. by rewrite Hfind.
Qed.

Lemma title_calls_upserts (projectId conversationId : string) (working : list Message)
    (deltas : list string) :
  ∀ text, title_calls (upserts projectId conversationId working text deltas) = 0.
Proof.
  unfold title_calls. induction deltas as [|d ds IH]; intros text;
    [reflexivity | apply IH].
Qed.

(** A turn whose first response holds no tool_use, in a conversation that
    did not hold exactly one message: the loop runs once and ends at
    [break]; one request is sent, shaped from the history and the user
    message; no tool runs and no title is asked for; the store ends with
    the history, the user message and, if any text was streamed, one
    assistant message holding all of it; the banner stays empty unless stop
    was pressed during the stream. *)
Theorem plain_reply_turn (comp : Component) (project : Project) (it : Iteration)
    (rest : list Iteration) (finalResponse : list MessageContent) :
  activeProject comp = Some project →
  (handleSendMessage comp (it :: rest)).1 ≠ Skipped →
  length (history comp) ≠ 1 →
  settles (stream_final it) = Resolved finalResponse →
  List.find is_tool_use finalResponse = None →
  let r := handleSendMessage comp (it :: rest) in
  let working := history comp ++ [userMessage comp] in
  r.1 = Finished
  ∧ currentMessages r.2 = working
  ∧ stream_requests (trace r.2)
    = [apiMessagesToSend (elideToolResults (settings project))
         (newestToolResultId working) ∅ (cachedApiMessages working)]
  ∧ stored (trace r.2)
    = Some match stream_deltas it with
           | [] => working
           | _ => working ++ [{| role := assistant;
                                 content := Blocks [TextBlock (streamed (stream_deltas it))];
                                 toolInput := None |}]
           end
  ∧ executed_on (trace r.2) = []
  ∧ title_calls (trace r.2) = 0
  ∧ error r.2 = (if stop_pressed (stream_final it)
                 then Some "Operation cancelled" else None).
Proof.
  intros Hp. unfold handleSendMessage. rewrite Hp.
  destruct (Js.trim (inputMessage comp)); [done|].
  destruct (activeConversationId comp) as [[|c0 id]|]; [done| |done].
  destruct (apiKey (settings project)) as [[|c key]|]; [done| |done].
  intros _ Hlen Hfinal Hfind.
  set (cid := String c0 id).
  set (working := history comp ++ [userMessage comp]).
  set (st1 := {| currentMessages := working; savedToolResults := ∅;
                 shouldCancel := false; isLoading := true; error := None;
                 trace := [UpdateMessages (project_id project) cid working] |}).
  assert (Htry : try_block comp project cid (it :: rest) (initial comp)
                 = loop comp project cid (it :: rest) st1).
  { unfold try_block. erewrite bind_throw by reflexivity. rewrite bind_get.
    by erewrite bind_throw by reflexivity. }
  rewrite Htry. cbn [loop].
  erewrite bind_throw by (by apply (loop_body_plain comp project cid it finalResponse st1)).
  unfold ret, settle. cbn [fst snd].
  pose proof (omap_upserts (fun e => match e with StreamCall l _ => Some l | _ => None end)
                (project_id project) cid working (stream_deltas it)
                (fun _ => eq_refl) EmptyString) as Hstream.
  pose proof (omap_upserts (fun e => match e with ExecuteTool s _ _ => Some s | _ => None end)
                (project_id project) cid working (stream_deltas it)
                (fun _ => eq_refl) EmptyString) as Hexec.
  pose proof (stored_upserts (project_id project) cid working (stream_deltas it) EmptyString
                [UpdateMessages (project_id project) cid working;
                 StreamCall
                   (apiMessagesToSend (elideToolResults (settings project))
                      (newestToolResultId working) ∅ (cachedApiMessages working))
                   match getUniqueTools comp false with
                   | [] => None
                   | _ => Some (getUniqueTools comp true)
                   end]) as Hstored.
  pose proof (title_calls_upserts (project_id project) cid working (stream_deltas it))
    as Htitles.
  destruct (stop_pressed (stream_final it)); simpl;
    (split; [done|]; split; [done|]; split; [f_equal; exact Hstream|];
     split; [|split; [exact Hexec|split; [exact (Htitles EmptyString)|done]]]).
  all: simpl in Hstored; etrans; [exact Hstored|]; by destruct (stream_deltas it).
Qed.

Lemma plain_reply_witness :
  let comp := new_chat false "What is 2+2?" in
  let r := handleSendMessage comp [says "4"] in
  let working := history comp ++ [userMessage comp] in
  r.1 = Finished
  ∧ currentMessages r.2 = working
  ∧ stream_requests (trace r.2)
    = [apiMessagesToSend (elideToolResults (settings (chat_project false [srv] [])))
         (newestToolResultId working) ∅ (cachedApiMessages working)]
  ∧ stored (trace r.2)
    = Some match stream_deltas (says "4") with
           | [] => working
           | _ => working ++ [{| role := assistant;
                                 content := Blocks [TextBlock (streamed (stream_deltas (says "4")))];
                                 toolInput := None |}]
           end
  ∧ executed_on (trace r.2) = []
  ∧ title_calls (trace r.2) = 0
  ∧ error r.2 = (if stop_pressed (stream_final (says "4"))
                 then Some "Operation cancelled" else None).
Proof.
  apply (plain_reply_turn (new_chat false "What is 2+2?") (chat_project false [srv] [])
           (says "4") [] [TextBlock "4"]).
  - reflexivity.
  - vm_compute. discriminate.
  - vm_compute. discriminate.
  - reflexivity.
  - reflexivity.
Defined.

(** ** Counting the calls of a turn *)

Lemma triple_bind {A B} (P : State → Prop) (m : M A) (k : A → M B)
    (Q1 : A → State → Prop) (Q : B → State → Prop) (E : State → Prop) :
  triple P m Q1 E → (∀ a, triple (Q1 a) (k a) Q E) → triple P (bind m k) Q E.
Proof.
  intros Hm Hk st HP. unfold bind. specialize (Hm st HP).
  destruct (m st) as [[a|e] st1]; [by apply Hk | done].
Qed.

Lemma triple_preserves {A} (I : State → Prop) (m : M A) :
  preserves I m → triple I m (fun _ => I) I.
Proof.
  intros Hm st HI. specialize (Hm st HI). by destruct (m st) as [[a|e] st1].
Qed.

Lemma triple_weaken {A} (P P' : State → Prop) (m : M A)
    (Q Q' : A → State → Prop) (E E' : State → Prop) :
  triple P m Q E →
  (∀ st, P' st → P st) → (∀ a st, Q a st → Q' a st) → (∀ st, E st → E' st) →
  triple P' m Q' E'.
Proof.
  intros Hm HP HQ HE st HP'. specialize (Hm st (HP st HP')).
  destruct (m st) as [[a|e] st1]; auto.
Qed.

Lemma stream_requests_snoc (tr : list Event) (e : Event) :
  length (stream_requests (tr ++ [e]))
  = length (stream_requests tr)
    + match e with StreamCall _ _ => 1 | _ => 0 end.
Proof.
  unfold stream_requests. rewrite omap_app, length_app. by destruct e.
Qed.

Lemma executed_on_snoc (tr : list Event) (e : Event) :
  length (executed_on (tr ++ [e]))
  = length (executed_on tr)
    + match e with ExecuteTool _ _ _ => 1 | _ => 0 end.
Proof.
  unfold executed_on. rewrite omap_app, length_app. by destruct e.
Qed.

Lemma title_calls_snoc (tr : list Event) (e : Event) :
  title_calls (tr ++ [e])
  = title_calls tr + match e with TitleCall _ _ => 1 | _ => 0 end.
Proof.
  unfold title_calls. rewrite List.filter_app, length_app. by destruct e.
Qed.

Lemma triple_get {B} (P : State → Prop) (k : State → M B)
    (Q : B → State → Prop) (E : State → Prop) :
  (∀ st0, triple P (k st0) Q E) → triple P (bind get k) Q E.
Proof. intros Hk st HP. rewrite bind_get. by apply Hk. Qed.

Lemma triple_ret {A} (P : State → Prop) (a : A) (E : State → Prop) :
  triple P (ret a) (fun _ => P) E.
Proof. by intros st HP. Qed.

(** The request phase takes [P0] to [P1] when sending the request does, the
    calls before it keep [P0] and those after it keep [P1]. *)
Lemma request_phase_triple (comp : Component) (project : Project)
    (conversationId : string) (it : Iteration) (P0 P1 : State → Prop) :
  (∀ saved, preserves P0 (set_saved saved)) →
  preserves P0 cancelCurrentCall →
  (∀ cached, preserves P0 (emit (JudgeCall cached))) →
  (∀ payload tools st, P0 st → P1 (emit (StreamCall payload tools) st).2) →
  preserves P1 cancelCurrentCall →
  (∀ l, preserves P1 (emit (UpdateMessages (project_id project) conversationId l))) →
  triple P0 (request_phase comp project conversationId it)
         (fun _ => P1) (fun st => P0 st ∨ P1 st).
Proof.
  intros Hsaved Hcancel0 Hjudge Hstream Hcancel1 Hupdate.
  unfold request_phase. apply triple_get. intros st0.
  apply (triple_bind P0 _ _ (fun _ => P0)).
  { eapply triple_weaken;
      [apply triple_preserves, (frame_judge_phase project P0 Hsaved Hcancel0 Hjudge)
      | done | done | by left]. }
  intros _. apply triple_get. intros st1.
  apply (triple_bind P0 _ _ (fun _ => P1)); last first.
  { intros finalResponse. eapply triple_weaken; [apply triple_ret|done|done|]. 
    intros st H. right. exact H. }
  unfold stream_phase. apply (triple_bind P0 _ _ (fun _ => P1)).
  { intros st HP0. simpl. by apply Hstream. }
  intros _. eapply triple_weaken; [apply triple_preserves| done | done | by right].
  apply preserves_bind.
  - apply (frame_on_text project conversationId P1 Hupdate).
  - intros _. apply (frame_await P1 Hcancel1).
Qed.

Lemma keeps_requests (n : nat) (e : Event) :
  match e with StreamCall _ _ => False | _ => True end →
  preserves (fun st => requests_made st ≤ n) (emit e).
Proof.
  intros He st Hst. unfold requests_made in *. simpl.
  rewrite stream_requests_snoc. destruct e; simpl; first [done | lia].
Qed.

Lemma requests_fixed (n : nat) (e : Event) :
  match e with StreamCall _ _ => False | _ => True end →
  preserves (fun st => requests_made st = n) (emit e).
Proof.
  intros He st Hst. unfold requests_made in *. simpl.
  rewrite stream_requests_snoc. destruct e; simpl; first [done | lia].
Qed.

Lemma keeps_behind (e : Event) :
  match e with ExecuteTool _ _ _ => False | _ => True end →
  preserves (fun st => tools_run st < requests_made st) (emit e).
Proof.
  intros He st Hst. unfold requests_made, tools_run in *. simpl.
  rewrite stream_requests_snoc, executed_on_snoc. destruct e; simpl; first [done | lia].
Qed.

Lemma keeps_not_ahead (e : Event) :
  match e with ExecuteTool _ _ _ => False | _ => True end →
  preserves (fun st => tools_run st ≤ requests_made st) (emit e).
Proof.
  intros He st Hst. unfold requests_made, tools_run in *. simpl.
  rewrite stream_requests_snoc, executed_on_snoc. destruct e; simpl; first [done | lia].
Qed.

(** A pass sends at most one request. *)
Lemma loop_body_requests (comp : Component) (project : Project) (conversationId : string)
    (it : Iteration) (n : nat) :
  triple (fun st => requests_made st ≤ n)
         (loop_body comp project conversationId it)
         (fun _ st => requests_made st ≤ n + 1)
         (fun st => requests_made st ≤ n + 1).
Proof.
  unfold loop_body.
  apply (triple_bind _ _ _ (fun _ st => requests_made st ≤ n + 1)).
  - eapply triple_weaken;
      [apply (request_phase_triple comp project conversationId it
                (fun st => requests_made st ≤ n) (fun st => requests_made st ≤ n + 1))
      | done | done | intros st [H|H]; lia].
    + by intros saved st H.
    + by intros st H.
    + intros cached. by apply keeps_requests.
    + intros payload tools st H. unfold requests_made in *. simpl.
      rewrite stream_requests_snoc. lia.
    + by intros st H.
    + intros l. by apply keeps_requests.
  - intros sent. apply triple_preserves, preserves_bind.
    + apply frame_title_phase; first [by intros st H | intros; by apply keeps_requests].
    + intros _. apply frame_tool_phase;
        first [by intros st H | by intros ? st H | intros; by apply keeps_requests].
Qed.

Lemma loop_requests (comp : Component) (project : Project) (conversationId : string)
    (script : list Iteration) :
  ∀ n, triple (fun st => requests_made st ≤ n)
              (loop comp project conversationId script)
              (fun _ st => requests_made st ≤ n + length script)
              (fun st => requests_made st ≤ n + length script).
Proof.
  induction script as [|it rest IH]; intros n; simpl.
  - intros st H. simpl. lia.
  - apply (triple_bind _ _ _ (fun _ st => requests_made st ≤ n + 1)).
    + eapply triple_weaken; [apply (loop_body_requests comp project conversationId it n)|..];
        intros; simpl in *; first [assumption | lia].
    + intros [|].
      * eapply triple_weaken; [apply (IH (n + 1)) | done | |];
          intros; simpl in *; lia.
      * intros st H. simpl. lia.
Qed.

(** A turn sends at most one request per response it consumes: never more
    requests than passes of the loop. *)
Theorem requests_bounded_by_passes (comp : Component) (script : list Iteration) :
  length (stream_requests (trace (handleSendMessage comp script).2)) ≤ length script.
Proof.
  unfold handleSendMessage.
  destruct (Js.trim (inputMessage comp)); [simpl; lia|].
  destruct (activeProject comp) as [project|]; [|simpl; lia].
  destruct (activeConversationId comp) as [[|c0 id]|]; [simpl; lia| |simpl; lia].
  destruct (apiKey (settings project)) as [[|c key]|]; [simpl; lia| |simpl; lia].
  destruct (settle_keeps (try_block comp project (String c0 id) script (initial comp)))
    as [_ ->].
  unfold try_block. erewrite bind_throw by reflexivity. rewrite bind_get.
  erewrite bind_throw by reflexivity.
  match goal with |- context [loop ?a ?b ?c ?d ?s] =>
    pose proof (loop_requests a b c d 0 s) as H;
    destruct (loop a b c d s) as [[o|e] st']
  end; simpl in *; apply H; unfold requests_made; simpl; lia.
Qed.

(** The dispatch runs at most one tool and sends no request. *)
Lemma tool_phase_counts (comp : Component) (project : Project) (conversationId : string)
    (it : Iteration) (finalResponse : list MessageContent) (st : State) :
  tools_run (tool_phase comp project conversationId it finalResponse st).2
    ≤ tools_run st + 1
  ∧ requests_made (tool_phase comp project conversationId it finalResponse st).2
    = requests_made st.
Proof.
  unfold tool_phase, tool_failed, tools_run, requests_made.
  destruct (List.find is_tool_use finalResponse) as [[text|id name input|i k e]|];
    try (simpl; lia).
  destruct (serverWithTool comp name) as [server|].
  - destruct (settles (tool_reply it)) as [result|e], (stop_pressed (tool_reply it));
      unfold bind; simpl;
      rewrite !stream_requests_snoc, !executed_on_snoc; simpl; lia.
  - unfold bind; simpl. rewrite !stream_requests_snoc, !executed_on_snoc; simpl; lia.
Qed.

Lemma loop_body_not_ahead (comp : Component) (project : Project) (conversationId : string)
    (it : Iteration) :
  triple (fun st => tools_run st ≤ requests_made st)
         (loop_body comp project conversationId it)
         (fun _ st => tools_run st ≤ requests_made st)
         (fun st => tools_run st ≤ requests_made st).
Proof.
  unfold loop_body.
  apply (triple_bind _ _ _ (fun _ st => tools_run st < requests_made st)).
  - eapply triple_weaken;
      [apply (request_phase_triple comp project conversationId it
                (fun st => tools_run st ≤ requests_made st)
                (fun st => tools_run st < requests_made st))
      | done | done | intros st [H|H]; lia].
    + by intros saved st H.
    + by intros st H.
    + intros cached. by apply keeps_not_ahead.
    + intros payload tools st H. unfold requests_made, tools_run in *. simpl.
      rewrite stream_requests_snoc, executed_on_snoc. lia.
    + by intros st H.
    + intros l. by apply keeps_behind.
  - intros sent.
    apply (triple_bind _ _ _ (fun _ st => tools_run st < requests_made st)).
    + apply (triple_weaken (fun st => tools_run st < requests_made st) _ _
               (fun _ st => tools_run st < requests_made st) _
               (fun st => tools_run st < requests_made st));
        [apply triple_preserves, frame_title_phase;
           first [by intros st H | intros; by apply keeps_behind]
        | done | done | intros st H; simpl in H; lia].
    + intros _ st H.
      pose proof (tool_phase_counts comp project conversationId it sent.2 st) as [He Hr].
      destruct (tool_phase comp project conversationId it sent.2 st) as [[next|e] st'];
        simpl in *; lia.
Qed.

Lemma loop_not_ahead (comp : Component) (project : Project) (conversationId : string)
    (script : list Iteration) :
  triple (fun st => tools_run st ≤ requests_made st)
         (loop comp project conversationId script)
         (fun _ st => tools_run st ≤ requests_made st)
         (fun st => tools_run st ≤ requests_made st).
Proof.
  induction script as [|it rest IH]; simpl.
  - by intros st H.
  - apply (triple_bind _ _ _ (fun _ st => tools_run st ≤ requests_made st)).
    + apply loop_body_not_ahead.
    + intros [|]; [apply IH | by intros st H].
Qed.

(** A turn never runs more tools than it has sent requests: each tool
    execution answers a response of its own. *)
Theorem tools_never_outnumber_requests (comp : Component) (script : list Iteration) :
  length (executed_on (trace (handleSendMessage comp script).2))
  ≤ length (stream_requests (trace (handleSendMessage comp script).2)).
Proof.
  unfold handleSendMessage.
  destruct (Js.trim (inputMessage comp)); [simpl; lia|].
  destruct (activeProject comp) as [project|]; [|simpl; lia].
  destruct (activeConversationId comp) as [[|c0 id]|]; [simpl; lia| |simpl; lia].
  destruct (apiKey (settings project)) as [[|c key]|]; [simpl; lia| |simpl; lia].
  destruct (settle_keeps (try_block comp project (String c0 id) script (initial comp)))
    as [_ ->].
  unfold try_block. erewrite bind_throw by reflexivity. rewrite bind_get.
  erewrite bind_throw by reflexivity.
  match goal with |- context [loop ?a ?b ?c ?d ?s] =>
    pose proof (loop_not_ahead a b c d s) as H;
    destruct (loop a b c d s) as [[o|e] st']
  end; simpl in *; apply H; unfold requests_made, tools_run; simpl; lia.
Qed.

(** The title phase leaves the working list alone and asks for a title at
    most once, and only for a payload of two messages. *)
Lemma title_phase_counts (comp : Component) (project : Project) (conversationId : string)
    (it : Iteration) (cached : list ApiMessage) (st : State) :
  let r := title_phase comp project conversationId it cached st in
  currentMessages r.2 = currentMessages st
  ∧ titles_asked st ≤ titles_asked r.2
  ∧ titles_asked r.2 ≤ titles_asked st + (if Nat.eqb (length cached) 2 then 1 else 0).
Proof.
  unfold title_phase, titles_asked.
  destruct (activeConversation comp);
    [|destruct (Nat.eqb (length cached) 2); simpl; repeat split; first [done | lia]].
  destruct cached as [|first [|second [|third more]]];
    try (simpl; repeat split; first [done | lia]).
  unfold await, bind.
  destruct (stop_pressed (title_reply it)),
           (settles (title_reply it)) as [[|[text| |] more]|e]; simpl;
    try destruct (suggestedTitle text); simpl;
    rewrite ?title_calls_snoc; simpl; repeat split; first [done | lia].
Qed.

Lemma tool_phase_titles (comp : Component) (project : Project) (conversationId : string)
    (it : Iteration) (finalResponse : list MessageContent) (st : State) :
  let r := tool_phase comp project conversationId it finalResponse st in
  titles_asked r.2 = titles_asked st
  ∧ length (currentMessages st) ≤ length (currentMessages r.2)
  ∧ (r.1 = Ok Continue → length (currentMessages r.2) = length (currentMessages st) + 1).
Proof.
  unfold tool_phase, tool_failed, titles_asked.
  destruct (List.find is_tool_use finalResponse) as [[text|id name input|i k e]|];
    try (simpl; repeat split; first [lia | discriminate]).
  destruct (serverWithTool comp name) as [server|].
  - destruct (settles (tool_reply it)) as [result|e], (stop_pressed (tool_reply it));
      unfold bind; simpl;
      rewrite ?title_calls_snoc, ?length_app; simpl; repeat split;
      first [lia | discriminate].
  - destruct (shouldCancel st); unfold bind; simpl;
      rewrite ?title_calls_snoc, ?length_app; simpl;
      repeat split; first [lia | discriminate].
Qed.

Lemma request_phase_keeps_titles (comp : Component) (project : Project)
    (conversationId : string) (it : Iteration) (st : State) :
  let r := request_phase comp project conversationId it st in
  currentMessages r.2 = currentMessages st ∧ titles_asked r.2 = titles_asked st.
Proof.
  apply (frame_request_phase comp project conversationId
           (fun s => currentMessages s = currentMessages st
                     ∧ titles_asked s = titles_asked st));
    try (by intros; intros s Hs);
    try (intros; intros s [Hc Ht]; split; [done|];
         unfold titles_asked in *; simpl; rewrite title_calls_snoc; simpl; lia).
  done.
Qed.

Lemma loop_body_title_spent (comp : Component) (project : Project)
    (conversationId : string) (it : Iteration) (st : State) :
  title_spent st →
  match loop_body comp project conversationId it st with
  | (Ok Continue, st') => title_spent st'
  | (_, st') => titles_asked st' ≤ 1
  end.
Proof.
  intros [Hle Hspent].
  pose proof (request_phase_keeps_titles comp project conversationId it st) as [Hc1 Ht1].
  unfold loop_body, bind.
  destruct (request_phase comp project conversationId it st) as [[sent|e] st1] eqn:Hreq;
    simpl in Hc1, Ht1; [|unfold titles_asked in *; lia].
  apply request_phase_sent in Hreq as [Hsent _].
  pose proof (title_phase_counts comp project conversationId it sent.1 st1)
    as (Hc2 & Ht2lo & Ht2).
  destruct (title_phase comp project conversationId it sent.1 st1) as [[[]|e] st2];
    simpl in Hc2, Ht2lo, Ht2; rewrite Hsent, cached_length in Ht2.
  - pose proof (tool_phase_titles comp project conversationId it sent.2 st2)
      as (Ht3 & Hlen & Hcont).
    destruct (tool_phase comp project conversationId it sent.2 st2) as [[[|]|e] st3];
      simpl in Ht3, Hlen, Hcont.
    + specialize (Hcont eq_refl). rewrite Hc2, Hc1 in Hcont.
      unfold title_spent, titles_asked in *.
      destruct (Nat.eqb_spec (length (currentMessages st)) 2); split; lia.
    + unfold titles_asked in *.
      destruct (Nat.eqb_spec (length (currentMessages st)) 2); lia.
    + unfold titles_asked in *.
      destruct (Nat.eqb_spec (length (currentMessages st)) 2); lia.
  - unfold titles_asked in *.
    destruct (Nat.eqb_spec (length (currentMessages st)) 2); lia.
Qed.

Lemma loop_title_spent (comp : Component) (project : Project) (conversationId : string)
    (script : list Iteration) :
  ∀ st, title_spent st →
        titles_asked (loop comp project conversationId script st).2 ≤ 1.
Proof.
  induction script as [|it rest IH]; intros st Hst; simpl.
  - apply Hst.
  - pose proof (loop_body_title_spent comp project conversationId it st Hst) as Hbody.
    unfold bind.
    destruct (loop_body comp project conversationId it st) as [[[|]|e] st1]; simpl.
    + by apply IH.
    + done.
    + done.
Qed.

(** A turn asks for a title at most once. *)
Theorem at_most_one_title_call (comp : Component) (script : list Iteration) :
  title_calls (trace (handleSendMessage comp script).2) ≤ 1.
Proof.
  unfold handleSendMessage.
  destruct (Js.trim (inputMessage comp)); [simpl; unfold title_calls; simpl; lia|].
  destruct (activeProject comp) as [project|]; [|unfold title_calls; simpl; lia].
  destruct (activeConversationId comp) as [[|c0 id]|];
    [unfold title_calls; simpl; lia| |unfold title_calls; simpl; lia].
  destruct (apiKey (settings project)) as [[|c key]|];
    [unfold title_calls; simpl; lia| |unfold title_calls; simpl; lia].
  destruct (settle_keeps (try_block comp project (String c0 id) script (initial comp)))
    as [_ ->].
  unfold try_block. erewrite bind_throw by reflexivity. rewrite bind_get.
  erewrite bind_throw by reflexivity.
  apply (loop_title_spent comp project (String c0 id) script).
  split; unfold titles_asked, title_calls; simpl; [lia | discriminate].
Qed.

(** ** Dispatch and elision together *)

Lemma holds_newest_last (cur : list Message) (m : Message) :
  result_ids m ≠ [] → holds_newest_result (cur ++ [m]) (length cur).
Proof.
  intros Hm. split.
  - exists m. split; [|done]. rewrite lookup_app_r by lia.
    by replace (length cur - length cur) with 0 by lia.
  - intros j m' Hj Hm'. apply lookup_lt_Some in Hm'.
    rewrite length_app in Hm'. simpl in Hm'. lia.
Qed.

(** The result the dispatch has just appended is the newest one, so the next
    request carries it whole, whatever the judge says: with elision on, the
    last message of the payload is the shaped tool result, and its content
    is the tool's answer. *)
Theorem dispatched_result_is_sent_whole (cur : list Message) (id text : string)
    (is_error : bool) (saved : gset string) :
  newestToolResultId (cur ++ [result_message id text is_error]) = Some id
  ∧ last (outbound (cur ++ [result_message id text is_error]) saved)
    = Some {| api_role := user;
              api_content := Blocks [ephemeral (bare (ToolResult id text is_error))];
              api_toolInput := None |}.
Proof.
  set (m := result_message id text is_error).
  pose proof (holds_newest_last cur m ltac:(done)) as Hholds.
  assert (Hm : (cur ++ [m]) !! length cur = Some m).
  { rewrite lookup_app_r by lia. by replace (length cur - length cur) with 0 by lia. }
  pose proof (newest_of_holder _ _ _ Hholds Hm) as Hnewest.
  split; [exact Hnewest|].
  rewrite last_lookup. unfold outbound, apiMessagesToSend.
  rewrite length_fmap, cached_length, length_app. simpl.
  replace (Nat.pred (length cur + 1)) with (length cur) by lia.
  rewrite list_lookup_fmap, cached_lookup, Hm. simpl. f_equal.
  rewrite (elide_message_newest (length (cur ++ [m])) (length cur) m saved
             (newestToolResultId (cur ++ [m])));
    [|done|by rewrite Hnewest].
  unfold shape_message. rewrite length_app. simpl.
  destruct (Nat.ltb_spec (length cur + 3) (length cur + 1)); [lia|]. done.
Qed.

(** ** The judge's verdicts and the payload *)

(** The last message of the payload starts with the block the last message
    of the working list starts with. *)
Lemma last_cached_first_block (msgs : list Message) (lastMessage : Message)
    (first : MessageContent) (more : list MessageContent) :
  last msgs = Some lastMessage →
  content lastMessage = Blocks (first :: more) →
  ∃ shaped b bs,
    last (cachedApiMessages msgs) = Some shaped
    ∧ api_content shaped = Blocks (b :: bs)
    ∧ blk b = first.
Proof.
  intros Hlast Hcontent. rewrite last_lookup in Hlast.
  rewrite last_lookup, cached_length, cached_lookup, Hlast. simpl.
  unfold shape_message. rewrite Hcontent.
  destruct (Nat.ltb (Nat.pred (length msgs) + 3) (length msgs)).
  - by exists {| api_role := role lastMessage;
                 api_content := Blocks (bare <$> first :: more);
                 api_toolInput := toolInput lastMessage |}, (bare first), (bare <$> more).
  - pose proof (blk_mark_last (bare <$> first :: more)) as Hblk.
    destruct (mark_last (bare <$> first :: more)) as [|b bs] eqn:Hmarked;
      [discriminate Hblk|].
    exists {| api_role := role lastMessage; api_content := Blocks (b :: bs);
              api_toolInput := toolInput lastMessage |}, b, bs.
    repeat split. by injection Hblk.
Qed.

(** The judging call and the parsing of its reply, when the reply is a text
    whose lines parse. *)
Lemma judge_phase_run (project : Project) (it : Iteration) (cached : list ApiMessage)
    (shaped : ApiMessage) (b : ApiBlock) (bs : list ApiBlock)
    (text : string) (others : list MessageContent) (saved : gset string) (st : State) :
  elideToolResults (settings project) = true →
  last cached = Some shaped →
  api_content shaped = Blocks (b :: bs) →
  is_tool_result (blk b) = true →
  settles (judge_reply it) = Resolved (TextBlock text :: others) →
  judge_text text (savedToolResults st) = Ok saved →
  let r := judge_phase project it cached st in
  r.1 = Ok tt
  ∧ savedToolResults r.2 = saved
  ∧ currentMessages r.2 = currentMessages st
  ∧ trace r.2 = trace st ++ [JudgeCall cached].
Proof.
  intros Helide Hlast Hcontent Hresult Hreply Hparse.
  unfold judge_phase, await, bind, get, lift, emit. rewrite Helide, Hlast, Hcontent.
  simpl. destruct (blk b); try discriminate Hresult.
  rewrite Hreply. destruct (stop_pressed (judge_reply it)); simpl; by rewrite Hparse.
Qed.

(** The request of a pass carries its payload whether or not the stream
    then settles well. *)
Lemma stream_phase_requests (comp : Component) (project : Project)
    (conversationId : string) (it : Iteration) (toSend : list ApiMessage) (st : State) :
  let r := stream_phase comp project conversationId it toSend st in
  savedToolResults r.2 = savedToolResults st
  ∧ stream_requests (trace r.2) = stream_requests (trace st) ++ [toSend].
Proof.
  unfold stream_phase.
  erewrite bind_throw by (unfold emit; reflexivity).
  erewrite bind_throw by apply on_text_run.
  assert (Hreq : ∀ tr calls,
            stream_requests ((tr ++ [StreamCall toSend calls])
                             ++ upserts (project_id project) conversationId
                                  (currentMessages st) EmptyString (stream_deltas it))
            = stream_requests tr ++ [toSend]).
  { intros tr calls. unfold stream_requests. rewrite !omap_app.
    rewrite omap_upserts by done. simpl. by rewrite app_nil_r. }
  unfold await, bind.
  destruct (stop_pressed (stream_final it)), (settles (stream_final it));
    simpl; by rewrite Hreq.
Qed.

(** With elision on, in a pass whose working list ends in a tool result,
    the judge is asked; when its reply is a text whose lines all have the
    separator, [savedToolResults] afterwards holds exactly the ids whose
    last verdict in the reply is Yes, together with the ids it held before
    on which the reply gives no verdict; in particular an id rated Yes and
    further down No is not in it.  The request of that pass is built with
    this set. *)
Theorem verdicts_decide_the_saved_set (comp : Component) (project : Project)
    (conversationId : string) (it : Iteration) (st : State)
    (lastMessage : Message) (first : MessageContent) (more : list MessageContent)
    (text : string) (others : list MessageContent) :
  elideToolResults (settings project) = true →
  last (currentMessages st) = Some lastMessage →
  content lastMessage = Blocks (first :: more) →
  is_tool_result first = true →
  settles (judge_reply it) = Resolved (TextBlock text :: others) →
  Forall separated (Js.split LF text) →
  let r := request_phase comp project conversationId it st in
  (∀ id, id ∈ savedToolResults r.2 ↔
         last_verdict (Js.split LF text) id = Some Yes
         ∨ (last_verdict (Js.split LF text) id = None ∧ id ∈ savedToolResults st))
  ∧ stream_requests (trace r.2)
    = stream_requests (trace st)
      ++ [outbound (currentMessages st) (savedToolResults r.2)].
Proof.
  intros Helide Hlast Hcontent Hresult Hreply Hlines r.
  destruct (judge_lines_total _ (savedToolResults st) Hlines) as [saved Hsaved].
  destruct (last_cached_first_block _ _ _ _ Hlast Hcontent)
    as (shaped & b & bs & Hshaped & Hblocks & Hb).
  rewrite <- Hb in Hresult.
  destruct (judge_phase_run project it (cachedApiMessages (currentMessages st))
              shaped b bs text others saved st
              Helide Hshaped Hblocks Hresult Hreply Hsaved)
    as (Hok & Hset & Hcur & Htrace).
  destruct (judge_phase project it (cachedApiMessages (currentMessages st)) st)
    as [[[]|e] st1] eqn:Hjudge; simpl in Hok; [|discriminate Hok].
  simpl in Hset, Hcur, Htrace.
  set (toSend := apiMessagesToSend (elideToolResults (settings project))
                   (newestToolResultId (currentMessages st)) (savedToolResults st1)
                   (cachedApiMessages (currentMessages st))).
  assert (Hstate : r.2 = (stream_phase comp project conversationId it toSend st1).2).
  { subst r. unfold request_phase. rewrite bind_get.
    erewrite bind_throw by exact Hjudge. rewrite bind_get. fold toSend.
    unfold bind. by destruct (stream_phase _ _ _ _ _ st1) as [[final|e] st2]. }
  destruct (stream_phase_requests comp project conversationId it toSend st1)
    as [Hkept Hsent].
  rewrite Hstate, Hkept, Hsent, Hset, Htrace.
  split; [intros id; by apply judge_lines_elem|].
  unfold stream_requests at 1. rewrite omap_app. simpl. rewrite app_nil_r.
  unfold toSend, outbound. by rewrite Helide, Hset.
Qed.

(** [toolu_a], saved before, is rated No and leaves the set; [toolu_b] is
    rated Yes last and enters it; [toolu_old] is not rated and stays. *)
Lemma verdicts_decide_witness :
  let it := with_judge (resolved [TextBlock mixed_verdicts]) (says "Done") in
  let r := request_phase (new_chat true "find it") (chat_project true [srv] []) "c1"
             it after_two_results in
  savedToolResults r.2 = {[ "toolu_b"; "toolu_old" ]}
  ∧ (∀ id, id ∈ savedToolResults r.2 ↔
           last_verdict (Js.split LF mixed_verdicts) id = Some Yes
           ∨ (last_verdict (Js.split LF mixed_verdicts) id = None
              ∧ id ∈ savedToolResults after_two_results))
  ∧ stream_requests (trace r.2)
    = stream_requests (trace after_two_results)
      ++ [outbound (currentMessages after_two_results) (savedToolResults r.2)].
Proof.
  split; [by vm_compute|].
  apply (verdicts_decide_the_saved_set
           (new_chat true "find it") (chat_project true [srv] []) "c1"
           (with_judge (resolved [TextBlock mixed_verdicts]) (says "Done"))
           after_two_results
           {| role := user; content := Blocks [ToolResult "toolu_b" "new" false];
              toolInput := None |}
           (ToolResult "toolu_b" "new" false) [] mixed_verdicts []).
  - reflexivity.
  - reflexivity.
  - reflexivity.
  - reflexivity.
  - reflexivity.
  - repeat (constructor; [vm_compute; lia|]). constructor.
Defined.

(** ** A failing title call, through the outer catch *)

Lemma title_phase_rejected (comp : Component) (project : Project)
    (conversationId : string) (it : Iteration) (conv : ConversationBrief)
    (first second : ApiMessage) (e : Thrown) (st : State) :
  activeConversation comp = Some conv →
  settles (title_reply it) = Rejected e →
  let r := title_phase comp project conversationId it [first; second] st in
  r.1 = Throw e
  ∧ currentMessages r.2 = currentMessages st
  ∧ trace r.2 = trace st ++ [TitleCall (api_content first) (api_content second)]
  ∧ shouldCancel r.2 = (stop_pressed (title_reply it) || shouldCancel st)
  ∧ error r.2 = (if stop_pressed (title_reply it) then Some "Operation cancelled"
                 else error st).
Proof.
  intros Hconv Hrej. unfold title_phase, await. rewrite Hconv, Hrej.
  unfold bind; simpl. by destruct (stop_pressed (title_reply it)).
Qed.

(** C8, as the code has it: in a pass that makes the title call (two
    messages in the payload) and sees it rejected, the error leaves the loop
    through the outer [catch]: the turn has failed with that error; nothing
    is dispatched or requested after the title call; the working list and
    the messages the store holds are as the request left them; and the
    banner shows the error's message if stop was not pressed, while after a
    press, during the title call or earlier in the turn, it keeps reading
    'Operation cancelled'.  The state the pass starts from is one a turn
    can be in: its banner and its cancel flag agree. *)
Theorem C8_title_failure_reaches_outer_catch
    (comp : Component) (project : Project) (conversationId : string)
    (it : Iteration) (rest : list Iteration) (st : State)
    (conv : ConversationBrief) (finalResponse : list MessageContent) (e : Thrown) :
  activeConversation comp = Some conv →
  banner_agrees st →
  length (currentMessages st) = 2 →
  (request_phase comp project conversationId it st).1
    = Ok (cachedApiMessages (currentMessages st), finalResponse) →
  settles (title_reply it) = Rejected e →
  let st1 := (request_phase comp project conversationId it st).2 in
  let r := settle (loop comp project conversationId (it :: rest) st) in
  r.1 = Failed e
  ∧ currentMessages r.2 = currentMessages st1
  ∧ stored (trace r.2) = stored (trace st1)
  ∧ executed_on (trace r.2) = executed_on (trace st1)
  ∧ stream_requests (trace r.2) = stream_requests (trace st1)
  ∧ error r.2 = (if stop_pressed (title_reply it) || shouldCancel st1
                 then Some "Operation cancelled"
                 else Some (error_text e)).
Proof.
  intros Hconv Hbanner Hlen Hreq Hrej st1 r.
  assert (Hbanner1 : banner_agrees st1).
  { apply (frame_request_phase comp project conversationId banner_agrees);
      try (intros; intros s Hs; exact Hs); [|exact Hbanner].
    intros s _. right. split; reflexivity. }
  destruct (request_phase comp project conversationId it st) as [sent st1'] eqn:Hphase.
  simpl in Hreq, st1. subst sent st1.
  pose proof (cached_length (currentMessages st)) as Hclen. rewrite Hlen in Hclen.
  destruct (cachedApiMessages (currentMessages st)) as [|first [|second [|third more]]]
    eqn:Hcached; try discriminate Hclen.
  pose proof (title_phase_rejected comp project conversationId it conv
                first second e st1' Hconv Hrej) as (Hthrow & Hcur & Htr & Hflag & Herr).
  assert (Hloop : loop comp project conversationId (it :: rest) st
                  = (Throw e, (title_phase comp project conversationId it
                                 [first; second] st1').2)).
  { cbn [loop]. unfold loop_body, bind. rewrite Hphase. cbn [fst snd].
    destruct (title_phase comp project conversationId it [first; second] st1')
      as [[[]|e'] st2]; simpl in *; congruence. }
  subst r. rewrite Hloop. unfold settle; simpl.
  repeat split; try done.
  - rewrite Htr. unfold stored. rewrite omap_app. simpl. by rewrite app_nil_r.
  - rewrite Htr. unfold executed_on. rewrite omap_app. simpl. by rewrite app_nil_r.
  - rewrite Htr. unfold stream_requests. rewrite omap_app. simpl. by rewrite app_nil_r.
  - rewrite Hflag, Herr.
    destruct Hbanner1 as [[-> ->]|[-> ->]]; by destruct (stop_pressed (title_reply it)).
Qed.

(** Stop is pressed while the title call of the second pass is pending, and
    the call is then rejected. *)
Lemma C8_title_failure_witness :
  let comp := new_chat false "find it" in
  let project := chat_project false [srv] [] in
  let it := with_title {| settles := Rejected (ErrorObj "529 overloaded");
                          stop_pressed := true |}
              (asks_search "t2" (resolved "7 results")) in
  let st1 := (request_phase comp project "c1" it second_pass).2 in
  let r := settle (loop comp project "c1" (it :: [says "Done"]) second_pass) in
  r.1 = Failed (ErrorObj "529 overloaded")
  ∧ currentMessages r.2 = currentMessages st1
  ∧ stored (trace r.2) = stored (trace st1)
  ∧ executed_on (trace r.2) = executed_on (trace st1)
  ∧ stream_requests (trace r.2) = stream_requests (trace st1)
  ∧ error r.2 = Some "Operation cancelled".
Proof.
  apply (C8_title_failure_reaches_outer_catch
           (new_chat false "find it") (chat_project false [srv] []) "c1"
           (with_title {| settles := Rejected (ErrorObj "529 overloaded");
                          stop_pressed := true |}
              (asks_search "t2" (resolved "7 results")))
           [says "Done"] second_pass
           {| conversation_id := "c1"; conversation_name := "New Chat";
              lastUpdated := 0; messages := [] |}
           [TextBlock "Searching"; ToolUse "t2" "search" "{}"]
           (ErrorObj "529 overloaded")).
  - reflexivity.
  - left. split; reflexivity.
  - reflexivity.
  - vm_compute. reflexivity.
  - reflexivity.
Defined.
